(** * W2D2 breakouts: decorators and the moving-average generators

    A shallow embedding of [breakout1_solution.py] ([shout], [style]) and of
    [breakout2_solution.py] ([moving_average], [moving_average_explicit],
    [moving_average_optimized], [get_volume], the pipeline of the two and
    the window shown by [demonstrate_simple_example]), followed by the
    properties of the specification and by further properties of the code.

    Conventions.
    - Python [int] is [Z].  The streams are annotated [Iterator[int]].
    - A Python [float] is a double.  The doubles that [int / int] returns
      are finite; each is represented by the rational it denotes, in
      lowest terms.  The quotient is rounded to the nearest double, ties
      to even, and is refused with [OverflowError] beyond the range of
      the doubles.  The sign of a zero is not kept: [-0.0 == 0.0].
    - [Py_ssize_t] has 64 bits.
    - An iterator over a finite sequence is the list of the elements it has
      not handed out yet; it is shared between the generator and its caller,
      so its state is passed into and out of every resumption.
    - A generator is its suspended frame; [next] resumes it. *)

From Stdlib Require Import String Ascii DecimalString.
From Stdlib Require Import ZArith QArith Qcanon List Bool Lia.
Import ListNotations.
Open Scope Z_scope.

(** ** The Python runtime the two scripts rely on *)

Module Py.

(** The built-in exceptions that the modelled statements can raise. *)
Inductive exn : Type :=
| ValueError
| ZeroDivisionError
| IndexError
| OverflowError.

Inductive result (A : Type) : Type :=
| Ok (a : A)
| Raise (e : exn).
Arguments Ok {A} a.
Arguments Raise {A} e.

Definition ret {A : Type} (a : A) : result A := Ok a.

Definition bind {A B : Type} (m : result A) (k : A -> result B) : result B :=
  match m with
  | Ok a => k a
  | Raise e => Raise e
  end.

(** [sum(iterable)]: a left fold of [+] starting from [0]. *)
Definition sum (l : list Z) : Z := fold_left Z.add l 0.

(** *** Doubles

    A finite double is [m * 2 ^ e] with [|m| <= 2 ^ 53] and
    [-1074 <= e]; the doubles stop below [2 ^ 1024]. *)

Definition double_overflow : Z := 2 ^ 1024.

(** [b * 2 ^ k <= a], for [k] of either sign. *)
Definition scaled_le (b k a : Z) : bool :=
  if 0 <=? k then b * 2 ^ k <=? a else b <=? a * 2 ^ (- k).

(** The integer part of the binary logarithm of [a / b], for positive
    [a] and [b]. *)
Definition floor_log2_ratio (a b : Z) : Z :=
  let k := Z.log2 a - Z.log2 b in
  if scaled_le b k a then k else k - 1.

(** The exponent of the unit in the last place of the double nearest to
    [a / b]: 53 significant bits, and no exponent below that of the
    subnormal doubles. *)
Definition ulp_exponent (a b : Z) : Z :=
  Z.max (floor_log2_ratio a b - 52) (-1074).

(** [n / d] rounded to the nearest integer, a tie going to the even one
    ([0 <= n], [0 < d]). *)
Definition round_half_even (n d : Z) : Z :=
  let q := n / d in
  let r := n mod d in
  if 2 * r <? d then q
  else if d <? 2 * r then q + 1
  else if Z.even q then q else q + 1.

(** [a / b] in units of [2 ^ e], rounded. *)
Definition mantissa (a b e : Z) : Z :=
  if 0 <=? e then round_half_even a (b * 2 ^ e)
  else round_half_even (a * 2 ^ (- e)) b.

(** The rational [m * 2 ^ e]. *)
Definition scaled (m e : Z) : Q :=
  if 0 <=? e then inject_Z (m * 2 ^ e)
  else Qred (m # Z.to_pos (2 ^ (- e))).

(** [a / b] on two ints: true division.  The result is the double
    nearest to the quotient; a zero divisor and a quotient that rounds
    beyond the doubles are errors. *)
Definition truediv (a b : Z) : result Q :=
  if b =? 0 then Raise ZeroDivisionError
  else if a =? 0 then Ok 0%Q
  else
    let e := ulp_exponent (Z.abs a) (Z.abs b) in
    let m := mantissa (Z.abs a) (Z.abs b) e in
    if (0 <=? e) && (double_overflow <=? m * 2 ^ e)
    then Raise OverflowError
    else Ok (scaled (Z.sgn a * Z.sgn b * m) e).

(** [collections.deque]: the items from left to right, and [maxlen]
    ([None] when unbounded). *)
Record deque : Type := Deque { items : list Z; maxlen : option Z }.

(** An int that a [Py_ssize_t] can hold. *)
Definition fits_ssize_t (n : Z) : bool :=
  (- 2 ^ 63 <=? n) && (n <? 2 ^ 63).

(** [deque(maxlen=m)]: the bound is converted to a [Py_ssize_t], and a
    negative bound is refused. *)
Definition deque_new (m : option Z) : result deque :=
  match m with
  | None => Ok (Deque [] None)
  | Some n =>
      if negb (fits_ssize_t n) then Raise OverflowError
      else if n <? 0 then Raise ValueError
      else Ok (Deque [] (Some n))
  end.

Definition len (d : deque) : Z := Z.of_nat (length (items d)).

(** [d.popleft()]: removes and returns the leftmost item. *)
Definition popleft (d : deque) : result (Z * deque) :=
  match items d with
  | [] => Raise IndexError
  | x :: rest => Ok (x, Deque rest (maxlen d))
  end.

(** [d.append(v)]: adds on the right; a bounded deque that has become
    longer than [maxlen] drops its leftmost item. *)
Definition append (d : deque) (v : Z) : deque :=
  let d' := Deque (items d ++ [v]) (maxlen d) in
  match maxlen d with
  | None => d'
  | Some n => if n <? len d' then Deque (tl (items d')) (maxlen d) else d'
  end.

End Py.

Import Py.

Notation "x <- m ;; k" := (bind m (fun x => k))
  (at level 61, m at next level, right associativity).
Notation "' p <- m ;; k" := (bind m (fun p => k))
  (at level 61, p pattern, m at next level, right associativity).

(** ** Streams and generators *)

(** The state of an iterator over a finite sequence. *)
Definition stream : Type := list Z.

(** A generator object of one of the three functions: created by the call
    and not started yet (only the argument [window_size] is bound; [stream]
    is the shared iterator), or suspended at its [yield] with locals [L]. *)
Inductive gen (L : Type) : Type :=
| Created (window_size : Z)
| Suspended (locals : L).
Arguments Created {L} window_size.
Arguments Suspended {L} locals.

(** What one [next(g)] does: it yields a value and suspends again, or the
    generator returns ([StopIteration]), or an exception escapes.  Each
    case carries the state in which the shared input iterator is left. *)
Inductive outcome (L : Type) : Type :=
| Yield (v : Q) (g : gen L) (s : stream)
| StopIteration (s : stream)
| Raised (e : exn) (s : stream).
Arguments Yield {L} v g s.
Arguments StopIteration {L} s.
Arguments Raised {L} e s.

(** [for value in stream: <body>; yield average], resumed at the loop
    head: the next element is requested from [stream]; when there is none
    the loop and the generator end. *)
Definition for_value_in {L : Type} (body : L -> Z -> result (Q * L))
    (l : L) (s : stream) : outcome L :=
  match s with
  | [] => StopIteration []
  | value :: s' =>
      match body l value with
      | Ok (average, l') => Yield average (Suspended l') s'
      | Raise e => Raised e s'
      end
  end.

(** [next(g)] for a generator whose code is [prologue] followed by the
    [for] loop over [body].  Nothing of the function runs before the first
    [next]. *)
Definition next {L : Type} (prologue : Z -> result L)
    (body : L -> Z -> result (Q * L)) (g : gen L) (s : stream) : outcome L :=
  match g with
  | Created window_size =>
      match prologue window_size with
      | Ok l => for_value_in body l s
      | Raise e => Raised e s
      end
  | Suspended l => for_value_in body l s
  end.

(** ** breakout2_solution.py *)

(** [moving_average], lines 63-78. *)
Module Basic.
Record locals : Type := Locals { window : deque; window_size : Z }.

(** [window = deque(maxlen=window_size)] *)
Definition prologue (window_size : Z) : result locals :=
  window <- deque_new (Some window_size) ;;
  ret (Locals window window_size).

(** [window.append(value); average = sum(window) / len(window)] *)
Definition body (l : locals) (value : Z) : result (Q * locals) :=
  let window := append (window l) value in
  average <- truediv (sum (items window)) (len window) ;;
  ret (average, Locals window (window_size l)).
End Basic.

(** [moving_average_explicit], lines 100-112. *)
Module Explicit.
Record locals : Type := Locals { window : deque; window_size : Z }.

(** [window = deque()] *)
Definition prologue (window_size : Z) : result locals :=
  window <- deque_new None ;;
  ret (Locals window window_size).

(** [window.append(value)]
    [if len(window) > window_size: window.popleft()]
    [average = sum(window) / len(window)] *)
Definition body (l : locals) (value : Z) : result (Q * locals) :=
  let window := append (window l) value in
  window <- (if window_size l <? len window
             then '(_, window) <- popleft window ;; ret window
             else ret window) ;;
  average <- truediv (sum (items window)) (len window) ;;
  ret (average, Locals window (window_size l)).
End Explicit.

(** [moving_average_optimized], lines 135-150. *)
Module Optimized.
Record locals : Type :=
  Locals { window : deque; running_sum : Z; window_size : Z }.

(** [window = deque(); running_sum = 0] *)
Definition prologue (window_size : Z) : result locals :=
  window <- deque_new None ;;
  ret (Locals window 0 window_size).

(** [window.append(value); running_sum += value]
    [if len(window) > window_size:]
    [    removed_value = window.popleft(); running_sum -= removed_value]
    [average = running_sum / len(window)] *)
Definition body (l : locals) (value : Z) : result (Q * locals) :=
  let window := append (window l) value in
  let running_sum := running_sum l + value in
  '(window, running_sum) <-
    (if window_size l <? len window
     then '(removed_value, window) <- popleft window ;;
          ret (window, running_sum - removed_value)
     else ret (window, running_sum)) ;;
  average <- truediv running_sum (len window) ;;
  ret (average, Locals window running_sum (window_size l)).
End Optimized.

(** Calling a generator function runs none of its body: it only builds
    the generator object. *)
Definition moving_average (window_size : Z) : gen Basic.locals :=
  Created window_size.
Definition moving_average_explicit (window_size : Z) : gen Explicit.locals :=
  Created window_size.
Definition moving_average_optimized (window_size : Z) : gen Optimized.locals :=
  Created window_size.

Definition moving_average_next :=
  next Basic.prologue Basic.body.
Definition moving_average_explicit_next :=
  next Explicit.prologue Explicit.body.
Definition moving_average_optimized_next :=
  next Optimized.prologue Optimized.body.

(** ** Consuming a generator *)

(** How a consumer's loop over a generator ends. *)
Inductive ending : Type :=
| Exhausted              (* the generator returned *)
| Failed (e : exn)       (* an exception escaped from [next] *)
| Unfinished.            (* the consumer stopped asking *)

(** What the consumer has seen: the values received in order, how the loop
    ended, and what is left in the shared input iterator. *)
Record run : Type :=
  Run { outputs : list Q; how : ending; remaining : stream }.

(** Ask for at most [fuel] values. *)
Fixpoint drive {L : Type} (nxt : gen L -> stream -> outcome L)
    (fuel : nat) (g : gen L) (s : stream) : run :=
  match fuel with
  | O => Run [] Unfinished s
  | S fuel' =>
      match nxt g s with
      | Yield v g' s' =>
          let r := drive nxt fuel' g' s' in
          Run (v :: outputs r) (how r) (remaining r)
      | StopIteration s' => Run [] Exhausted s'
      | Raised e s' => Run [] (Failed e) s'
      end
  end.

(** [list(g)] over a finite input: one request per element and one more
    to see the end. *)
Definition consume {L : Type} (nxt : gen L -> stream -> outcome L)
    (g : gen L) (s : stream) : run :=
  drive nxt (S (length s)) g s.

(** [list(moving_average(iter(data), window_size))] and its siblings. *)
Definition list_moving_average (data : list Z) (window_size : Z) : run :=
  consume moving_average_next (moving_average window_size) data.
Definition list_moving_average_explicit (data : list Z) (window_size : Z) : run :=
  consume moving_average_explicit_next (moving_average_explicit window_size) data.
Definition list_moving_average_optimized (data : list Z) (window_size : Z) : run :=
  consume moving_average_optimized_next (moving_average_optimized window_size) data.

(** The frames a generator can be in: the one the call built, and every
    frame it suspends in afterwards, whatever the input offers. *)
Inductive reachable {L : Type} (nxt : gen L -> stream -> outcome L)
    (g0 : gen L) : gen L -> Prop :=
| reach_call : reachable nxt g0 g0
| reach_yield g s v g' s' :
    reachable nxt g0 g ->
    nxt g s = Yield v g' s' ->
    reachable nxt g0 g'.

(** The last [n] elements of [l] (all of [l] when it is shorter). *)
Definition lastn {A : Type} (n : nat) (l : list A) : list A :=
  skipn (length l - n) l.

(** The [w] inputs that end at position [i] (counted from 0). *)
Definition recent (w : nat) (data : list Z) (i : nat) : list Z :=
  firstn w (skipn (S i - w) data).

(** The state invariant of [moving_average_optimized] after an element has
    been processed. *)
Definition optimized_invariant (w : Z) (g : gen Optimized.locals) : Prop :=
  match g with
  | Created _ => True
  | Suspended l =>
      Optimized.running_sum l = sum (items (Optimized.window l))
      /\ len (Optimized.window l) <= w
  end.

(** The window of a suspended frame holds at least one element: the
    divisor of the division that has just been carried out. *)
Definition divisor_nonzero {L : Type} (window : L -> deque) (g : gen L) : Prop :=
  match g with
  | Created _ => True
  | Suspended l => len (window l) <> 0
  end.

(** A run that is refused for its arguments: an invalid-argument error,
    with the input untouched and nothing produced. *)
Definition rejected_up_front (r : run) (data : list Z) : Prop :=
  how r = Failed ValueError /\ remaining r = data /\ outputs r = [].

(** [sum(w) / len(w)] *)
Definition mean (w : list Z) : result Q :=
  truediv (sum w) (Z.of_nat (length w)).

(** The run as a function of the input alone: from a window holding [w],
    each input is averaged with the [n - 1] values before it, until the
    input ends or a division fails. *)
Fixpoint sliding_run (n : nat) (w : list Z) (data : list Z) : run :=
  match data with
  | [] => Run [] Exhausted []
  | x :: data' =>
      let w' := lastn n (w ++ [x]) in
      match mean w' with
      | Ok q =>
          let r := sliding_run n w' data' in
          Run (q :: outputs r) (how r) (remaining r)
      | Raise e => Run [] (Failed e) data'
      end
  end.

(** The ints that a double holds exactly whatever their low bits. *)
Definition small (x : Z) : Prop := Z.abs x <= 2 ^ 53.

(** Ints well inside the range of the doubles. *)
Definition moderate (x : Z) : Prop := Z.abs x < 2 ^ 1023.

(** What a frame of each generator, built with window size [w], looks
    like when its window holds [win]: before the first [next] nothing is
    held; afterwards the window is never empty nor longer than [w]. *)
Definition window_of_frame (w : Z) (started : bool) (win : list Z) : Prop :=
  if started
  then win <> [] /\ (length win <= Z.to_nat w)%nat
  else win = [].

Definition basic_frame (w : Z) (g : gen Basic.locals) (win : list Z) : Prop :=
  match g with
  | Created w' => w' = w /\ window_of_frame w false win
  | Suspended l =>
      Basic.window l = Deque win (Some w) /\ window_of_frame w true win
  end.

Definition explicit_frame (w : Z) (g : gen Explicit.locals) (win : list Z) : Prop :=
  match g with
  | Created w' => w' = w /\ window_of_frame w false win
  | Suspended l =>
      Explicit.window_size l = w
      /\ Explicit.window l = Deque win None
      /\ window_of_frame w true win
  end.

Definition optimized_frame (w : Z) (g : gen Optimized.locals) (win : list Z) : Prop :=
  match g with
  | Created w' => w' = w /\ window_of_frame w false win
  | Suspended l =>
      Optimized.window_size l = w
      /\ Optimized.window l = Deque win None
      /\ Optimized.running_sum l = sum win
      /\ window_of_frame w true win
  end.

(** A generator that behaves as a sliding window of size [w] in every
    frame described by [frame]: at the end of the input it returns; on an
    element it divides the sum of the window slid over that element by
    its length, and either yields the quotient and suspends holding that
    window, or lets the error of the division escape. *)
Definition slides {L : Type} (w : Z) (nxt : gen L -> stream -> outcome L)
    (frame : gen L -> list Z -> Prop) : Prop :=
  forall g win, frame g win ->
    nxt g [] = StopIteration []
    /\ forall value s,
         let win' := lastn (Z.to_nat w) (win ++ [value]) in
         match mean win' with
         | Ok q => exists g', nxt g (value :: s) = Yield q g' s
                              /\ frame g' win'
         | Raise e => nxt g (value :: s) = Raised e s
         end.

(** ** breakout1_solution.py *)

Module Decorators.
Section Wrappers.

(** A call can read and change the world outside it, and either returns
    or raises. *)
Variable World : Type.
Variable Exc : Type.
(** The positional and keyword arguments passed on to [func]. *)
Variable Args : Type.
(** [str.upper], a built-in. *)
Variable upper : string -> string.
(** What the function decorated by [style] returns, and what an f-string
    inserts for it ([format(result, "")]; for a str, the str itself). *)
Variable Value : Type.
Variable format : Value -> string.

Definition call (A : Type) : Type := World -> (Exc + A) * World.

Definition returns {A : Type} (a : A) : call A := fun w => (inr a, w).

Definition and_then {A B : Type} (m : call A) (k : A -> call B) : call B :=
  fun w =>
    match m w with
    | (inr a, w') => k a w'
    | (inl e, w') => (inl e, w')
    end.

(** [result = func(args, kwargs)]
    [shouted_result = result.upper() + "!!!"]
    [return shouted_result] *)
Definition shout (func : Args -> call string) : Args -> call string :=
  fun args =>
    and_then (func args) (fun result =>
    let shouted_result := (upper result ++ "!!!")%string in
    returns shouted_result).

(** [result = func(args, kwargs)]
    [styled_result = f"{prefix}{result}{suffix}"]
    [return styled_result] *)
Definition style (prefix suffix : string) (func : Args -> call Value)
    : Args -> call string :=
  fun args =>
    and_then (func args) (fun result =>
    let styled_result := (prefix ++ format result ++ suffix)%string in
    returns styled_result).

End Wrappers.

(** What an f-string inserts for a str. *)
Definition format_str (s : string) : string := s.

(** The values that the decorated functions of the examples can return:
    a str, an int, [None]. *)
Inductive value : Type :=
| Str (s : string)
| Int (z : Z)
| NoneValue.

(** [format(v, "")] *)
Definition format_value (v : value) : string :=
  match v with
  | Str s => s
  | Int z => NilZero.string_of_int (Z.to_int z)
  | NoneValue => "None"
  end.


(** [str.upper] on text made of ASCII characters only. *)
Definition upper_ascii_char (c : ascii) : ascii :=
  let n := nat_of_ascii c in
  if (97 <=? n)%nat && (n <=? 122)%nat then ascii_of_nat (n - 32) else c.

Fixpoint upper_ascii (s : string) : string :=
  match s with
  | EmptyString => EmptyString
  | String c s' => String (upper_ascii_char c) (upper_ascii s')
  end.

(** The demonstration functions of [main]: [greet] under [@shout], and
    [say_something] under [@style(">>> ", " <<<")]. *)
Definition greet (name : string) : call unit Empty_set string :=
  returns unit Empty_set ("hello " ++ name)%string.

Definition say_something (message : string) : call unit Empty_set string :=
  returns unit Empty_set message.

(** A function that returns the int [5], whatever it is given. *)
Definition five (_ : string) : call unit Empty_set value :=
  returns unit Empty_set (Int 5).

End Decorators.

(** ** Taking only some of the values *)

(** The generator and the input after [k] values have been requested and
    received; [None] when one of the requests did not yield. *)
Fixpoint advance {L : Type} (nxt : gen L -> stream -> outcome L)
    (k : nat) (g : gen L) (s : stream) : option (gen L * stream) :=
  match k with
  | O => Some (g, s)
  | S k' =>
      match nxt g s with
      | Yield _ g' s' => advance nxt k' g' s'
      | StopIteration _ => None
      | Raised _ _ => None
      end
  end.

(** ** The window shown by [demonstrate_simple_example] *)

(** A bound of a slice of a sequence of length [n]: a negative bound is
    counted from the end, and every bound is clamped to the sequence. *)
Definition slice_bound (n i : Z) : Z :=
  if i <? 0 then Z.max (i + n) 0 else Z.min i n.

(** [data[a:b]] *)
Definition slice {A : Type} (data : list A) (a b : Z) : list A :=
  let n := Z.of_nat (length data) in
  let a' := slice_bound n a in
  let b' := slice_bound n b in
  firstn (Z.to_nat (b' - a')) (skipn (Z.to_nat a') data).

(** Lines 258-261, for step [i] (counted from 1):
    [data[:i]] if [i <= window_size], else [data[i-window_size:i]]. *)
Definition displayed_window (data : list Z) (window_size i : Z) : list Z :=
  if i <=? window_size then slice data 0 i
  else slice data (i - window_size) i.

(** ** [get_volume] and the pipeline built on it *)

Module Volume.

(** A field of a row handed out by a [csv.DictReader]: its text, or
    [None] when the line was too short to have it. *)
Inductive field : Type :=
| Text (s : string)
| NoField.

(** A row: a dict from column names to fields. *)
Definition row : Type := string -> option field.

(** What can escape from the pipeline: a missing column, [int(None)],
    or one of the exceptions of the filter and of [int]. *)
Inductive error : Type :=
| KeyError (key : string)
| TypeError
| Builtin (e : exn).

(** How a consumer's loop over rows ends. *)
Inductive stop : Type :=
| Ended
| Failing (e : error)
| Pending.

(** The end of a run of the filter, seen through the pipeline. *)
Definition through (e : ending) : stop :=
  match e with
  | Exhausted => Ended
  | Failed x => Failing (Builtin x)
  | Unfinished => Pending
  end.

(** One [next] of [get_volume(dictreader)]; the reader is the list of the
    rows it has not handed out yet. *)
Inductive pulled : Type :=
| Got (value : Z) (rows : list row)
| Finished
| Broke (e : error) (rows : list row).

(** What a consumer of [get_volume] has seen. *)
Record volume_run : Type :=
  VolumeRun { volumes : list Z; volumes_end : stop; unread : list row }.

(** One [next] of a moving-average generator whose [stream] is
    [get_volume(reader)]: as [next], the elements coming from
    [get_volume_next], whose exceptions pass through the filter. *)
Inductive piped (L : Type) : Type :=
| PYield (v : Q) (g : gen L) (rows : list row)
| PStop
| PRaised (e : error) (rows : list row).
Arguments PYield {L} v g rows.
Arguments PStop {L}.
Arguments PRaised {L} e rows.

(** What a consumer of the pipeline has seen. *)
Record piped_run : Type :=
  PipedRun { filtered : list Q; filtered_end : stop; rows_left : list row }.

Section Reader.

(** [int] on a [str], a built-in: [None] stands for its [ValueError]. *)
Variable int_of_text : string -> option Z.

(** [int(row['Volume'])] *)
Definition volume_of (r : row) : error + Z :=
  match r "Volume"%string with
  | None => inl (KeyError "Volume")
  | Some NoField => inl TypeError
  | Some (Text s) =>
      match int_of_text s with
      | Some z => inr z
      | None => inl (Builtin ValueError)
      end
  end.

(** [for row in dictreader: yield int(row['Volume'])], lines 181-184. *)
Definition get_volume_next (rows : list row) : pulled :=
  match rows with
  | [] => Finished
  | r :: rest =>
      match volume_of r with
      | inr z => Got z rest
      | inl e => Broke e rest
      end
  end.

Fixpoint pull_volumes (fuel : nat) (rows : list row) : volume_run :=
  match fuel with
  | O => VolumeRun [] Pending rows
  | S fuel' =>
      match get_volume_next rows with
      | Got z rest =>
          let r := pull_volumes fuel' rest in
          VolumeRun (z :: volumes r) (volumes_end r) (unread r)
      | Finished => VolumeRun [] Ended []
      | Broke e rest => VolumeRun [] (Failing e) rest
      end
  end.

(** [list(get_volume(dictreader))] *)
Definition list_get_volume (rows : list row) : volume_run :=
  pull_volumes (S (length rows)) rows.

Definition for_value_in_volumes {L : Type} (body : L -> Z -> result (Q * L))
    (l : L) (rows : list row) : piped L :=
  match get_volume_next rows with
  | Finished => PStop
  | Broke e rest => PRaised e rest
  | Got value rest =>
      match body l value with
      | Ok (average, l') => PYield average (Suspended l') rest
      | Raise e => PRaised (Builtin e) rest
      end
  end.

Definition next_over_volumes {L : Type} (prologue : Z -> result L)
    (body : L -> Z -> result (Q * L)) (g : gen L) (rows : list row) : piped L :=
  match g with
  | Created window_size =>
      match prologue window_size with
      | Ok l => for_value_in_volumes body l rows
      | Raise e => PRaised (Builtin e) rows
      end
  | Suspended l => for_value_in_volumes body l rows
  end.

Fixpoint drive_over_volumes {L : Type} (nxt : gen L -> list row -> piped L)
    (fuel : nat) (g : gen L) (rows : list row) : piped_run :=
  match fuel with
  | O => PipedRun [] Pending rows
  | S fuel' =>
      match nxt g rows with
      | PYield v g' rest =>
          let r := drive_over_volumes nxt fuel' g' rest in
          PipedRun (v :: filtered r) (filtered_end r) (rows_left r)
      | PStop => PipedRun [] Ended []
      | PRaised e rest => PipedRun [] (Failing e) rest
      end
  end.

(** [volume_stream = get_volume(reader)]
    [filtered_stream = moving_average_optimized(volume_stream, window_size)]
    consumed to the end (lines 219-220, 301-302, 323-324). *)
Definition filtered_stream (rows : list row) (window_size : Z) : piped_run :=
  drive_over_volumes
    (next_over_volumes Optimized.prologue Optimized.body)
    (S (length rows)) (moving_average_optimized window_size) rows.

(** The rows are well formed and their volumes are [vs]. *)
Definition volumes_are (rows : list row) (vs : list Z) : Prop :=
  Forall2 (fun r z => volume_of r = inr z) rows vs.

End Reader.

(** [int] on text made of decimal digits only. *)
Definition digit_value (c : ascii) : option Z :=
  let n := nat_of_ascii c in
  if (48 <=? n)%nat && (n <=? 57)%nat then Some (Z.of_nat (n - 48)) else None.

Fixpoint digits_value (acc : Z) (s : string) : option Z :=
  match s with
  | EmptyString => Some acc
  | String c s' =>
      match digit_value c with
      | Some d => digits_value (10 * acc + d) s'
      | None => None
      end
  end.

Definition int_of_digits (s : string) : option Z :=
  match s with
  | EmptyString => None
  | String _ _ => digits_value 0 s
  end.

(** A row with the single column [Volume]. *)
Definition volume_row (text : string) : row :=
  fun key => if String.eqb key "Volume" then Some (Text text) else None.

(** A row of a file that has no [Volume] column. *)
Definition price_row (text : string) : row :=
  fun key => if String.eqb key "Close" then Some (Text text) else None.

End Volume.


(** * Properties *)

(** ** Sums and list suffixes *)

Section Arithmetic.

Lemma fold_add_shift (l : list Z) (a : Z) :
  fold_left Z.add l a = a + fold_left Z.add l 0.
Proof.
  revert a; induction l as [|x l IH]; intro a; simpl.
  - lia.
  - rewrite (IH (a + x)), (IH x). lia.
Qed.

Lemma sum_cons (x : Z) (l : list Z) : sum (x :: l) = x + sum l.
Proof. unfold sum; simpl. apply fold_add_shift. Qed.

Lemma sum_snoc (l : list Z) (x : Z) : sum (l ++ [x]) = sum l + x.
Proof. unfold sum. rewrite fold_left_app. reflexivity. Qed.

Lemma sum_singleton (x : Z) : sum [x] = x.
Proof. reflexivity. Qed.

End Arithmetic.

Section Suffixes.

Context {A : Type}.
Implicit Types (l a b : list A) (n : nat).

Lemma length_lastn n l : length (lastn n l) = Nat.min n (length l).
Proof. unfold lastn. rewrite length_skipn. lia. Qed.

Lemma lastn_all n l : (length l <= n)%nat -> lastn n l = l.
Proof.
  intro H. unfold lastn.
  replace (length l - n)%nat with 0%nat by lia. reflexivity.
Qed.

Lemma lastn_drop_one n l :
  length l = S n -> lastn n l = tl l.
Proof.
  intro H. unfold lastn. rewrite H.
  replace (S n - n)%nat with 1%nat by lia.
  destruct l; reflexivity.
Qed.

Lemma lastn_app_lastn n a b : lastn n (lastn n a ++ b) = lastn n (a ++ b).
Proof.
  unfold lastn.
  rewrite !skipn_app, !length_app, !length_skipn, !skipn_skipn.
  f_equal; f_equal; lia.
Qed.

Lemma lastn_one_snoc l (x : A) : lastn 1 (l ++ [x]) = [x].
Proof.
  unfold lastn. rewrite skipn_app, length_app. simpl length.
  replace (length l + 1 - 1)%nat with (length l) by lia.
  rewrite skipn_all, Nat.sub_diag. reflexivity.
Qed.

Lemma lastn_firstn n i l :
  (n <= S i)%nat -> (i < length l)%nat ->
  lastn n (firstn (S i) l) = firstn n (skipn (S i - n) l).
Proof.
  intros Hn Hi. unfold lastn.
  rewrite length_firstn, skipn_firstn_comm.
  replace (Nat.min (S i) (length l)) with (S i) by lia.
  f_equal. lia.
Qed.

Lemma lastn_snoc_nonempty n l (x : A) :
  (1 <= n)%nat -> lastn n (l ++ [x]) <> [].
Proof.
  intros Hn E. apply (f_equal (@length A)) in E.
  rewrite length_lastn, length_app in E. simpl in E. lia.
Qed.

Lemma Forall_lastn (P : A -> Prop) n l :
  Forall P l -> Forall P (lastn n l).
Proof.
  unfold lastn. generalize (length l - n)%nat as m. intros m H.
  revert l H. induction m as [|m IH]; intros l H; [exact H|].
  destruct H as [|x l Hx Hl]; simpl; [constructor|apply IH, Hl].
Qed.

End Suffixes.

(** ** Division of ints: the double nearest to the quotient *)

Section Doubles.

Lemma pow2_pos (k : Z) : 0 <= k -> 0 < 2 ^ k.
Proof. intro H. apply Z.pow_pos_nonneg; lia. Qed.

Lemma pow2_split (j k : Z) : 0 <= j -> 0 <= k -> 2 ^ (j + k) = 2 ^ j * 2 ^ k.
Proof. intros. apply Z.pow_add_r; assumption. Qed.

(** For a quotient of at least one, [floor_log2_ratio] is the position
    of its leading bit. *)
Lemma floor_log2_ratio_spec (a b : Z) :
  0 < a -> 0 < b -> 0 <= floor_log2_ratio a b ->
  b * 2 ^ floor_log2_ratio a b <= a < b * 2 ^ (floor_log2_ratio a b + 1).
Proof.
  intros Ha Hb. unfold floor_log2_ratio, scaled_le.
  pose proof (Z.log2_spec a Ha) as [Ha1 Ha2].
  pose proof (Z.log2_spec b Hb) as [Hb1 Hb2].
  pose proof (Z.log2_nonneg a) as Hla. pose proof (Z.log2_nonneg b) as Hlb.
  set (la := Z.log2 a) in *. set (lb := Z.log2 b) in *.
  destruct (Z.leb_spec 0 (la - lb)) as [Hk|Hk].
  - pose proof (pow2_pos lb Hlb) as HP.
    pose proof (pow2_pos (la - lb) Hk) as HQ.
    assert (E1 : 2 ^ la = 2 ^ lb * 2 ^ (la - lb)).
    { rewrite <- pow2_split by lia. f_equal. lia. }
    assert (E2 : 2 ^ Z.succ la = 2 * (2 ^ lb * 2 ^ (la - lb))).
    { rewrite Z.pow_succ_r by lia. rewrite E1. reflexivity. }
    assert (E3 : 2 ^ Z.succ lb = 2 * 2 ^ lb) by (apply Z.pow_succ_r; lia).
    rewrite E1 in Ha1. rewrite E2 in Ha2. rewrite E3 in Hb2.
    destruct (Z.leb_spec (b * 2 ^ (la - lb)) a) as [Ht|Ht]; intro Hf.
    + split; [exact Ht|].
      replace (la - lb + 1) with (Z.succ (la - lb)) by lia.
      rewrite Z.pow_succ_r by lia. nia.
    + replace (la - lb - 1 + 1) with (la - lb) by lia. split; [|exact Ht].
      assert (E4 : 2 ^ (la - lb) = 2 * 2 ^ (la - lb - 1)).
      { replace (la - lb) with (Z.succ (la - lb - 1)) at 1 by lia.
        apply Z.pow_succ_r. lia. }
      pose proof (pow2_pos (la - lb - 1) Hf). nia.
  - destruct (b <=? a * 2 ^ (- (la - lb))); intro Hf; lia.
Qed.

Lemma floor_log2_ratio_multiple (c b : Z) :
  0 < b -> 0 < c -> floor_log2_ratio (c * b) b = Z.log2 c.
Proof.
  intros Hb Hc.
  assert (Ha : 0 < c * b) by nia.
  assert (Hf : 0 <= floor_log2_ratio (c * b) b).
  { unfold floor_log2_ratio, scaled_le.
    assert (Hk : Z.log2 b <= Z.log2 (c * b)) by (apply Z.log2_le_mono; nia).
    destruct (Z.leb_spec 0 (Z.log2 (c * b) - Z.log2 b)) as [_|H]; [|lia].
    destruct (Z.leb_spec (b * 2 ^ (Z.log2 (c * b) - Z.log2 b)) (c * b))
      as [_|Ht]; [lia|].
    destruct (Z.eq_dec (Z.log2 (c * b) - Z.log2 b) 0) as [E|E]; [|lia].
    rewrite E in Ht. change (2 ^ 0) with 1 in Ht. nia. }
  pose proof (floor_log2_ratio_spec (c * b) b Ha Hb Hf) as [Hlo Hhi].
  symmetry. apply Z.log2_unique; [exact Hf|].
  replace (Z.succ (floor_log2_ratio (c * b) b))
    with (floor_log2_ratio (c * b) b + 1) by lia.
  split; nia.
Qed.

Lemma round_half_even_bounds (n d : Z) :
  0 <= n -> 0 < d ->
  n / d <= round_half_even n d <= n / d + 1.
Proof.
  intros Hn Hd. unfold round_half_even.
  destruct (2 * (n mod d) <? d); [lia|].
  destruct (d <? 2 * (n mod d)); [lia|].
  destruct (Z.even (n / d)); lia.
Qed.

Lemma round_half_even_exact (M d : Z) :
  0 < d -> round_half_even (M * d) d = M.
Proof.
  intro Hd. unfold round_half_even.
  rewrite Z.mod_mul, Z.div_mul by lia.
  destruct (Z.ltb_spec (2 * 0) d); [reflexivity|lia].
Qed.

(** Rounding does not cross an integer. *)
Lemma round_half_even_le (n d K : Z) :
  0 <= n -> 0 < d -> n <= K * d -> round_half_even n d <= K.
Proof.
  intros Hn Hd HK.
  destruct (Z.eq_dec n (K * d)) as [->|Hne].
  - rewrite round_half_even_exact by exact Hd. lia.
  - pose proof (round_half_even_bounds n d Hn Hd) as [_ Hup].
    assert (n / d < K) by (apply Z.div_lt_upper_bound; lia). lia.
Qed.

Lemma round_half_even_ge (n d K : Z) :
  0 <= n -> 0 < d -> K * d <= n -> K <= round_half_even n d.
Proof.
  intros Hn Hd HK.
  pose proof (round_half_even_bounds n d Hn Hd) as [Hlo _].
  assert (K <= n / d) by (apply Z.div_le_lower_bound; lia). lia.
Qed.

Lemma Qred_inject_Z (z : Z) : Qred (inject_Z z) = inject_Z z.
Proof. apply Qred_identity. simpl. apply Z.gcd_1_r. Qed.

Lemma scaled_exact (c j : Z) :
  0 <= j -> scaled (c * 2 ^ j) (- j) = inject_Z c.
Proof.
  intro Hj. unfold scaled. destruct (Z.leb_spec 0 (- j)) as [H|H].
  - assert (j = 0) as -> by lia. simpl. f_equal. lia.
  - rewrite Z.opp_involutive, <- (Qred_inject_Z c).
    apply Qred_complete. unfold Qeq, inject_Z. simpl Qnum. simpl Qden.
    rewrite Z2Pos.id by (apply pow2_pos; lia). lia.
Qed.

Lemma mantissa_exact_below (c b j : Z) :
  0 < b -> 0 <= j -> mantissa (c * b) b (- j) = c * 2 ^ j.
Proof.
  intros Hb Hj. unfold mantissa. destruct (Z.leb_spec 0 (- j)) as [H|H].
  - assert (j = 0) as -> by lia. change (- 0) with 0. change (2 ^ 0) with 1.
    replace (c * b) with (c * 1 * (b * 1)) by lia.
    apply round_half_even_exact. lia.
  - rewrite Z.opp_involutive.
    replace (c * b * 2 ^ j) with (c * 2 ^ j * b) by lia.
    apply round_half_even_exact. exact Hb.
Qed.

Lemma truediv_by_zero (a : Z) : truediv a 0 = Raise ZeroDivisionError.
Proof. reflexivity. Qed.

(** A division by a non-zero int returns, or overflows. *)
Lemma truediv_cases (a b : Z) :
  b <> 0 ->
  (exists q, truediv a b = Ok q) \/ truediv a b = Raise OverflowError.
Proof.
  intro Hb. unfold truediv.
  destruct (Z.eqb_spec b 0) as [E|_]; [contradiction|].
  destruct (a =? 0); [left; eexists; reflexivity|].
  destruct (_ && _); [right; reflexivity|left; eexists; reflexivity].
Qed.

Lemma truediv_not_zero_division (a b : Z) :
  b <> 0 -> truediv a b <> Raise ZeroDivisionError.
Proof.
  intro Hb. destruct (truediv_cases a b Hb) as [[q ->]| ->]; discriminate.
Qed.

Lemma small_below_overflow (c : Z) :
  0 <= c <= 2 ^ 53 -> (double_overflow <=? c) = false.
Proof.
  intro Hc. apply Z.leb_gt. unfold double_overflow.
  assert (2 ^ 53 < 2 ^ 1024) by (apply Z.pow_lt_mono_r; lia). lia.
Qed.

(** A quotient that is an int of at most 53 bits is returned as it is. *)
Lemma truediv_exact (c b : Z) :
  0 < b -> small c -> truediv (c * b) b = Ok (inject_Z c).
Proof.
  intros Hb Hc. unfold small in Hc. unfold truediv.
  destruct (Z.eqb_spec b 0) as [E|_]; [lia|].
  destruct (Z.eqb_spec (c * b) 0) as [E|Hne].
  - assert (c = 0) as -> by nia. reflexivity.
  - assert (Hc0 : c <> 0) by (intros ->; lia).
    replace (Z.abs (c * b)) with (Z.abs c * b) by nia.
    replace (Z.abs b) with b by lia.
    replace (Z.sgn (c * b) * Z.sgn b) with (Z.sgn c) by nia.
    assert (Hpos : 0 < Z.abs c) by lia.
    unfold ulp_exponent.
    rewrite (floor_log2_ratio_multiple (Z.abs c) b Hb Hpos).
    pose proof (Z.log2_spec (Z.abs c) Hpos) as [Hl1 Hl2].
    pose proof (Z.log2_nonneg (Z.abs c)) as Hl0.
    assert (Hl : Z.log2 (Z.abs c) <= 53).
    { rewrite <- (Z.log2_pow2 53) by lia. apply Z.log2_le_mono. exact Hc. }
    set (l := Z.log2 (Z.abs c)) in *.
    rewrite Z.max_l by lia.
    destruct (Z.eq_dec l 53) as [E53|N53].
    + assert (Eabs : Z.abs c = 2 ^ 53) by (rewrite E53 in Hl1; lia).
      rewrite Eabs, E53. change (53 - 52) with 1.
      unfold mantissa. change (0 <=? 1) with true. cbv iota.
      replace (2 ^ 53 * b) with (2 ^ 52 * (b * 2 ^ 1)) by lia.
      rewrite round_half_even_exact by lia.
      replace (2 ^ 52 * 2 ^ 1) with (2 ^ 53) by lia.
      rewrite small_below_overflow by lia. cbn [andb].
      unfold scaled. change (0 <=? 1) with true. cbv iota.
      do 2 f_equal. lia.
    + replace (l - 52) with (- (52 - l)) by lia.
      rewrite (mantissa_exact_below (Z.abs c) b (52 - l)) by lia.
      assert (Hnov :
        (0 <=? - (52 - l))
        && (double_overflow <=? Z.abs c * 2 ^ (52 - l) * 2 ^ (- (52 - l)))
        = false).
      { destruct (Z.leb_spec 0 (- (52 - l))) as [H|H]; [|reflexivity].
        assert (l = 52) as -> by lia. change (52 - 52) with 0.
        change (- 0) with 0. change (2 ^ 0) with 1.
        rewrite !Z.mul_1_r. apply small_below_overflow. lia. }
      rewrite Hnov. f_equal.
      replace (Z.sgn c * (Z.abs c * 2 ^ (52 - l))) with (c * 2 ^ (52 - l))
        by nia.
      apply scaled_exact. lia.
Qed.

(** An int divided by one is the nearest double: the int itself when it
    has at most 53 bits. *)
Lemma truediv_by_one (x : Z) : small x -> truediv x 1 = Ok (inject_Z x).
Proof.
  intro Hx. pose proof (truediv_exact x 1) as H.
  rewrite Z.mul_1_r in H. apply H; [lia|exact Hx].
Qed.

(** A quotient below [2 ^ 1023] in magnitude does not overflow. *)
Lemma truediv_moderate (a b : Z) :
  0 < b -> Z.abs a < 2 ^ 1023 * b -> exists q, truediv a b = Ok q.
Proof.
  intros Hb Ha. unfold truediv.
  destruct (Z.eqb_spec b 0) as [E|_]; [lia|].
  destruct (Z.eqb_spec a 0) as [E|Hne]; [eexists; reflexivity|].
  replace (Z.abs b) with b by lia.
  assert (Hpos : 0 < Z.abs a) by lia.
  set (A := Z.abs a) in *.
  destruct (Z.leb_spec 0 (ulp_exponent A b)) as [He|He];
    [|eexists; reflexivity].
  unfold ulp_exponent in *.
  set (f := floor_log2_ratio A b) in *.
  assert (Hf : 52 <= f) by lia.
  rewrite Z.max_l by lia.
  pose proof (floor_log2_ratio_spec A b Hpos Hb) as Hspec.
  fold f in Hspec. destruct Hspec as [Hlo Hhi]; [lia|].
  assert (Hf1023 : f < 1023).
  { apply (Z.pow_lt_mono_r_iff 2); [lia|lia|]. nia. }
  assert (Esplit : 2 ^ (f + 1) = 2 ^ 53 * 2 ^ (f - 52)).
  { rewrite <- pow2_split by lia. f_equal. lia. }
  pose proof (pow2_pos (f - 52)) as Hp.
  assert (Hm : mantissa A b (f - 52) <= 2 ^ 53).
  { unfold mantissa. destruct (Z.leb_spec 0 (f - 52)) as [_|H]; [|lia].
    apply round_half_even_le; nia. }
  assert (Hm0 : 0 <= mantissa A b (f - 52)).
  { unfold mantissa. destruct (Z.leb_spec 0 (f - 52)) as [_|H]; [|lia].
    apply round_half_even_ge; nia. }
  assert (Hbelow : mantissa A b (f - 52) * 2 ^ (f - 52) < double_overflow).
  { unfold double_overflow.
    assert (2 ^ (f + 1) <= 2 ^ 1023) by (apply Z.pow_le_mono_r; lia).
    assert (2 ^ 1023 < 2 ^ 1024) by (apply Z.pow_lt_mono_r; lia).
    nia. }
  apply Z.leb_gt in Hbelow. rewrite Hbelow.
  eexists; reflexivity.
Qed.

End Doubles.

(** ** One resumption of each generator *)

Section Steps.

Variable w : Z.
Hypothesis w_pos : 1 <= w.

(** Dropping the leftmost item of an over-full window keeps the last
    [w] items. *)
Lemma trim_lastn (win : list Z) (value : Z) :
  (length win <= Z.to_nat w)%nat ->
  (if w <? Z.of_nat (length (win ++ [value]))
   then tl (win ++ [value]) else win ++ [value])
  = lastn (Z.to_nat w) (win ++ [value]).
Proof.
  intro Hlen. rewrite length_app. simpl length.
  destruct (Z.ltb_spec w (Z.of_nat (length win + 1))) as [Hlt|Hge].
  - symmetry. apply lastn_drop_one. rewrite length_app. simpl. lia.
  - symmetry. apply lastn_all. rewrite length_app. simpl. lia.
Qed.

Lemma slid_window (win : list Z) (value : Z) :
  window_of_frame w true (lastn (Z.to_nat w) (win ++ [value])).
Proof.
  simpl. split.
  - apply lastn_snoc_nonempty. lia.
  - rewrite length_lastn. lia.
Qed.

Lemma basic_body (win : list Z) (ws value : Z) :
  (length win <= Z.to_nat w)%nat ->
  let win' := lastn (Z.to_nat w) (win ++ [value]) in
  Basic.body (Basic.Locals (Deque win (Some w)) ws) value
  = match mean win' with
    | Ok q => Ok (q, Basic.Locals (Deque win' (Some w)) ws)
    | Raise e => Raise e
    end.
Proof.
  intros Hlen win'. unfold Basic.body, append, len, mean.
  cbn [Basic.window Basic.window_size items maxlen].
  pose proof (trim_lastn win value Hlen) as Htrim. fold win' in Htrim.
  clearbody win'.
  destruct (w <? Z.of_nat (length (win ++ [value])));
    cbn [items maxlen]; rewrite Htrim;
    destruct (truediv (sum win') (Z.of_nat (length win'))); reflexivity.
Qed.

Lemma explicit_body (win : list Z) (value : Z) :
  (length win <= Z.to_nat w)%nat ->
  let win' := lastn (Z.to_nat w) (win ++ [value]) in
  Explicit.body (Explicit.Locals (Deque win None) w) value
  = match mean win' with
    | Ok q => Ok (q, Explicit.Locals (Deque win' None) w)
    | Raise e => Raise e
    end.
Proof.
  intros Hlen win'. unfold Explicit.body, append, len, mean.
  cbn [Explicit.window Explicit.window_size items maxlen].
  pose proof (trim_lastn win value Hlen) as Htrim. fold win' in Htrim.
  clearbody win'.
  destruct (w <? Z.of_nat (length (win ++ [value]))) eqn:Hfull.
  - unfold popleft. cbn [items maxlen].
    destruct (win ++ [value]) as [|x rest] eqn:E.
    + destruct win; discriminate.
    + cbn [tl] in Htrim. rewrite Htrim. cbn [bind ret items].
      destruct (truediv (sum win') (Z.of_nat (length win'))); reflexivity.
  - cbn [bind ret items]. rewrite Htrim.
    destruct (truediv (sum win') (Z.of_nat (length win'))); reflexivity.
Qed.

Lemma optimized_body (win : list Z) (value : Z) :
  (length win <= Z.to_nat w)%nat ->
  let win' := lastn (Z.to_nat w) (win ++ [value]) in
  Optimized.body (Optimized.Locals (Deque win None) (sum win) w) value
  = match mean win' with
    | Ok q => Ok (q, Optimized.Locals (Deque win' None) (sum win') w)
    | Raise e => Raise e
    end.
Proof.
  intros Hlen win'. unfold Optimized.body, append, len, mean.
  cbn [Optimized.window Optimized.running_sum Optimized.window_size
       items maxlen].
  pose proof (trim_lastn win value Hlen) as Htrim. fold win' in Htrim.
  clearbody win'.
  pose proof (sum_snoc win value) as Hsum.
  destruct (w <? Z.of_nat (length (win ++ [value]))) eqn:Hfull.
  - unfold popleft. cbn [items maxlen].
    destruct (win ++ [value]) as [|x rest] eqn:E.
    + destruct win; discriminate.
    + cbn [tl] in Htrim. rewrite Htrim in *. cbn [bind ret items].
      rewrite sum_cons in Hsum.
      replace (sum win + value - x) with (sum win') by lia.
      destruct (truediv (sum win') (Z.of_nat (length win'))); reflexivity.
  - cbn [bind ret items]. rewrite Htrim in *. rewrite <- Hsum.
    destruct (truediv (sum win') (Z.of_nat (length win'))); reflexivity.
Qed.

Lemma deque_new_in_range :
  w < 2 ^ 63 -> deque_new (Some w) = Ok (Deque [] (Some w)).
Proof.
  intro Hw. unfold deque_new, fits_ssize_t.
  destruct (Z.leb_spec (- 2 ^ 63) w) as [_|H]; [|lia].
  destruct (Z.ltb_spec w (2 ^ 63)) as [_|H]; [|lia].
  destruct (Z.ltb_spec w 0) as [H|_]; [lia|]. reflexivity.
Qed.

Lemma basic_slides :
  w < 2 ^ 63 -> slides w moving_average_next (basic_frame w).
Proof.
  intros Hw g win Hg. unfold moving_average_next, next.
  destruct g as [w'|[window ws]]; cbn [basic_frame Basic.window] in Hg.
  - destruct Hg as [-> Hwin]. cbn [window_of_frame] in Hwin. subst win.
    unfold Basic.prologue. rewrite (deque_new_in_range Hw).
    split; [reflexivity|]. intros value s.
    match goal with |- context [mean ?x] => set (win' := x) end.
    cbn [bind ret for_value_in].
    pose proof (basic_body [] w value) as Hbody. cbv zeta in Hbody.
    fold win' in Hbody. rewrite Hbody by (simpl; lia).
    destruct (mean win'); [|reflexivity].
    eexists; split; [reflexivity|].
    split; [reflexivity|apply (slid_window [] value)].
  - destruct Hg as [-> Hwin].
    split; [reflexivity|]. intros value s.
    match goal with |- context [mean ?x] => set (win' := x) end. cbn [for_value_in].
    pose proof (basic_body win ws value) as Hbody. cbv zeta in Hbody.
    fold win' in Hbody. rewrite Hbody by apply Hwin.
    destruct (mean win'); [|reflexivity].
    eexists; split; [reflexivity|].
    split; [reflexivity|apply (slid_window win value)].
Qed.

Lemma explicit_slides :
  slides w moving_average_explicit_next (explicit_frame w).
Proof.
  intros g win Hg. unfold moving_average_explicit_next, next.
  destruct g as [w'|[window ws]];
    cbn [explicit_frame Explicit.window Explicit.window_size] in Hg.
  - destruct Hg as [-> Hwin]. cbn [window_of_frame] in Hwin. subst win.
    unfold Explicit.prologue, deque_new.
    split; [reflexivity|]. intros value s.
    match goal with |- context [mean ?x] => set (win' := x) end.
    cbn [bind ret for_value_in].
    pose proof (explicit_body [] value) as Hbody. cbv zeta in Hbody.
    fold win' in Hbody. rewrite Hbody by (simpl; lia).
    destruct (mean win'); [|reflexivity].
    eexists; split; [reflexivity|].
    repeat split; try reflexivity; apply (slid_window [] value).
  - destruct Hg as (-> & -> & Hwin).
    split; [reflexivity|]. intros value s.
    match goal with |- context [mean ?x] => set (win' := x) end. cbn [for_value_in].
    pose proof (explicit_body win value) as Hbody. cbv zeta in Hbody.
    fold win' in Hbody. rewrite Hbody by apply Hwin.
    destruct (mean win'); [|reflexivity].
    eexists; split; [reflexivity|].
    repeat split; try reflexivity; apply (slid_window win value).
Qed.

Lemma optimized_slides :
  slides w moving_average_optimized_next (optimized_frame w).
Proof.
  intros g win Hg. unfold moving_average_optimized_next, next.
  destruct g as [w'|[window rs ws]];
    cbn [optimized_frame Optimized.window Optimized.running_sum
         Optimized.window_size] in Hg.
  - destruct Hg as [-> Hwin]. cbn [window_of_frame] in Hwin. subst win.
    unfold Optimized.prologue, deque_new.
    split; [reflexivity|]. intros value s.
    match goal with |- context [mean ?x] => set (win' := x) end.
    cbn [bind ret for_value_in].
    pose proof (optimized_body [] value) as Hbody. cbv zeta in Hbody.
    fold win' in Hbody. change (sum []) with 0 in Hbody.
    rewrite Hbody by (simpl; lia).
    destruct (mean win'); [|reflexivity].
    eexists; split; [reflexivity|].
    repeat split; try reflexivity; apply (slid_window [] value).
  - destruct Hg as (-> & -> & -> & Hwin).
    split; [reflexivity|]. intros value s.
    match goal with |- context [mean ?x] => set (win' := x) end. cbn [for_value_in].
    pose proof (optimized_body win value) as Hbody. cbv zeta in Hbody.
    fold win' in Hbody. rewrite Hbody by apply Hwin.
    destruct (mean win'); [|reflexivity].
    eexists; split; [reflexivity|].
    repeat split; try reflexivity; apply (slid_window win value).
Qed.

End Steps.

(** ** Runs of a sliding generator *)

Section Runs.

Context {L : Type}.
Variable w : Z.
Variable nxt : gen L -> stream -> outcome L.
Variable frame : gen L -> list Z -> Prop.
Hypothesis sliding : slides w nxt frame.

Lemma drive_slides (data : list Z) :
  forall (fuel : nat) (g : gen L) (win : list Z),
    frame g win -> (length data < fuel)%nat ->
    drive nxt fuel g data = sliding_run (Z.to_nat w) win data.
Proof.
  induction data as [|x data IH]; intros fuel g win Hg Hfuel;
    destruct fuel as [|fuel]; simpl in Hfuel; try lia;
    destruct (sliding g win Hg) as [Hend Hstep]; cbn [drive sliding_run].
  - rewrite Hend. reflexivity.
  - specialize (Hstep x data). cbv zeta in Hstep.
    destruct (mean (lastn (Z.to_nat w) (win ++ [x]))) as [q|e].
    + destruct Hstep as (g' & Hyield & Hg').
      rewrite Hyield, (IH fuel g' _ Hg') by lia. reflexivity.
    + rewrite Hstep. reflexivity.
Qed.

Lemma consume_slides (g : gen L) (data : list Z) :
  frame g [] ->
  consume nxt g data = sliding_run (Z.to_nat w) [] data.
Proof.
  intro Hg. unfold consume. apply drive_slides; [assumption|lia].
Qed.

Lemma yield_frame (g g' : gen L) (win : list Z) (s s' : stream) (v : Q) :
  frame g win -> nxt g s = Yield v g' s' ->
  exists x, s = x :: s'
            /\ mean (lastn (Z.to_nat w) (win ++ [x])) = Ok v
            /\ frame g' (lastn (Z.to_nat w) (win ++ [x])).
Proof.
  intros Hg Hyield. destruct (sliding g win Hg) as [Hend Hstep].
  destruct s as [|x s].
  - rewrite Hend in Hyield. discriminate.
  - specialize (Hstep x s). cbv zeta in Hstep. exists x.
    destruct (mean (lastn (Z.to_nat w) (win ++ [x]))) as [q|e].
    + destruct Hstep as (g'' & Hy & Hg'').
      rewrite Hy in Hyield. injection Hyield as -> -> ->.
      repeat split. exact Hg''.
    + rewrite Hstep in Hyield. discriminate.
Qed.

Lemma reachable_frame (g0 g : gen L) :
  frame g0 [] -> reachable nxt g0 g -> exists win, frame g win.
Proof.
  intros H0 Hreach. induction Hreach as [|g s v g' s' _ [win IH] Hyield].
  - exists []. assumption.
  - destruct (yield_frame g g' win s s' v IH Hyield) as (x & _ & _ & Hg').
    eexists; exact Hg'.
Qed.

(** With a window of at least one element, the only error that can
    escape is the overflow of the quotient. *)
Lemma frame_raises_overflow_only (g : gen L) (win : list Z)
    (s s' : stream) (e : exn) :
  1 <= w -> frame g win -> nxt g s = Raised e s' -> e = OverflowError.
Proof.
  intros Hw Hg Hraised. destruct (sliding g win Hg) as [Hend Hstep].
  destruct s as [|x s].
  - rewrite Hend in Hraised. discriminate.
  - specialize (Hstep x s). cbv zeta in Hstep.
    assert (Hne : lastn (Z.to_nat w) (win ++ [x]) <> [])
      by (apply lastn_snoc_nonempty; lia).
    unfold mean in Hstep.
    destruct (truediv_cases (sum (lastn (Z.to_nat w) (win ++ [x])))
                (Z.of_nat (length (lastn (Z.to_nat w) (win ++ [x])))))
      as [[q Hq]|Hq].
    + destruct (lastn (Z.to_nat w) (win ++ [x])); [contradiction|].
      simpl. lia.
    + rewrite Hq in Hstep. destruct Hstep as (g' & Hy & _).
      rewrite Hy in Hraised. discriminate.
    + rewrite Hq in Hstep. rewrite Hstep in Hraised.
      injection Hraised as <- _. reflexivity.
Qed.

Lemma advance_slides (k : nat) :
  forall (g g' : gen L) (win data s' : list Z),
    frame g win ->
    advance nxt (S k) g data = Some (g', s') ->
    s' = skipn (S k) data /\ (S k <= length data)%nat
    /\ frame g' (lastn (Z.to_nat w) (win ++ firstn (S k) data)).
Proof.
  induction k as [|k IH]; intros g g' win data s' Hg Hadv.
  - cbn [advance] in Hadv.
    destruct (nxt g data) as [v g1 s1| |] eqn:Hy; try discriminate.
    injection Hadv as -> ->.
    destruct (yield_frame g g' win data s' v Hg Hy) as (x & -> & _ & Hg').
    repeat split; [simpl; lia|exact Hg'].
  - change (advance nxt (S (S k)) g data)
      with (match nxt g data with
            | Yield _ g2 s2 => advance nxt (S k) g2 s2
            | StopIteration _ => None
            | Raised _ _ => None
            end) in Hadv.
    destruct (nxt g data) as [v g1 s1| |] eqn:Hy; try discriminate.
    destruct (yield_frame g g1 win data s1 v Hg Hy) as (x & -> & _ & Hg1).
    destruct (IH g1 g' _ s1 s' Hg1 Hadv) as (Hs & Hlen & Hg').
    repeat split.
    + exact Hs.
    + simpl. lia.
    + rewrite lastn_app_lastn, <- app_assoc in Hg'. exact Hg'.
Qed.

End Runs.

(** ** The run as a function of the input *)

Section SlidingRuns.

Variable n : nat.

Lemma sliding_run_length (data : list Z) :
  forall win, (length (outputs (sliding_run n win data)) <= length data)%nat.
Proof.
  induction data as [|x data IH]; intro win; cbn [sliding_run].
  - simpl. lia.
  - destruct (mean (lastn n (win ++ [x]))); simpl; [|lia].
    specialize (IH (lastn n (win ++ [x]))). lia.
Qed.

Lemma sliding_run_exhausted (data : list Z) :
  forall win,
    how (sliding_run n win data) = Exhausted ->
    length (outputs (sliding_run n win data)) = length data
    /\ remaining (sliding_run n win data) = [].
Proof.
  induction data as [|x data IH]; intro win; cbn [sliding_run].
  - intros _. split; reflexivity.
  - destruct (mean (lastn n (win ++ [x]))); simpl; [|discriminate].
    intro H. destruct (IH _ H) as [Hlen Hrem]. split; [lia|exact Hrem].
Qed.

Lemma sliding_run_failed (data : list Z) :
  forall win e,
    how (sliding_run n win data) = Failed e ->
    (length (outputs (sliding_run n win data)) < length data)%nat.
Proof.
  induction data as [|x data IH]; intros win e; cbn [sliding_run].
  - discriminate.
  - destruct (mean (lastn n (win ++ [x]))); simpl; [|lia].
    intro H. specialize (IH _ _ H). lia.
Qed.

Lemma sliding_run_ends (data : list Z) :
  (1 <= n)%nat ->
  forall win,
    how (sliding_run n win data) = Exhausted
    \/ how (sliding_run n win data) = Failed OverflowError.
Proof.
  intro Hn. induction data as [|x data IH]; intro win; cbn [sliding_run].
  - left; reflexivity.
  - pose proof (lastn_snoc_nonempty n win x Hn) as Hne. unfold mean.
    destruct (truediv_cases (sum (lastn n (win ++ [x])))
                (Z.of_nat (length (lastn n (win ++ [x]))))) as [[q Hq]|Hq].
    + destruct (lastn n (win ++ [x])); [contradiction|simpl; lia].
    + rewrite Hq. simpl. apply IH.
    + rewrite Hq. right; reflexivity.
Qed.

Lemma nth_error_sliding_run (data : list Z) :
  forall (win : list Z) (i : nat) (q : Q),
    nth_error (outputs (sliding_run n win data)) i = Some q ->
    (i < length data)%nat
    /\ mean (lastn n (win ++ firstn (S i) data)) = Ok q.
Proof.
  induction data as [|x data IH]; intros win i q; cbn [sliding_run].
  - destruct i; discriminate.
  - destruct (mean (lastn n (win ++ [x]))) as [q0|e] eqn:Hm;
      cbn [outputs]; [|destruct i; discriminate].
    destruct i as [|i]; cbn [nth_error].
    + intro H. injection H as <-. split; [simpl; lia|]. exact Hm.
    + intro H. destruct (IH _ _ _ H) as [Hi Hq]. split; [simpl; lia|].
      rewrite lastn_app_lastn, <- app_assoc in Hq. exact Hq.
Qed.

Lemma sliding_run_same_suffix (data a b : list Z) :
  lastn n a = lastn n b -> sliding_run n a data = sliding_run n b data.
Proof.
  intro Hab. destruct data as [|x data]; cbn [sliding_run]; [reflexivity|].
  assert (E : lastn n (a ++ [x]) = lastn n (b ++ [x])).
  { rewrite <- (lastn_app_lastn n a), <- (lastn_app_lastn n b), Hab.
    reflexivity. }
  rewrite E. reflexivity.
Qed.

Lemma sliding_run_app (xs ys : list Z) :
  forall win,
    outputs (sliding_run n win (xs ++ ys))
    = outputs (sliding_run n win xs)
      ++ match how (sliding_run n win xs) with
         | Exhausted => outputs (sliding_run n (win ++ xs) ys)
         | Failed _ => []
         | Unfinished => []
         end.
Proof.
  induction xs as [|x xs IH]; intro win; cbn [app sliding_run].
  - simpl. rewrite app_nil_r. reflexivity.
  - destruct (mean (lastn n (win ++ [x]))); cbn [outputs how];
      [|reflexivity].
    rewrite IH. cbn [app]. do 2 f_equal.
    destruct (how (sliding_run n (lastn n (win ++ [x])) xs));
      try reflexivity.
    f_equal. apply sliding_run_same_suffix.
    rewrite lastn_app_lastn, <- app_assoc. reflexivity.
Qed.

Lemma sliding_run_prefix (xs ys : list Z) (win : list Z) :
  firstn (length xs) (outputs (sliding_run n win (xs ++ ys)))
  = outputs (sliding_run n win xs).
Proof.
  rewrite sliding_run_app.
  destruct (how (sliding_run n win xs)) eqn:Hhow.
  - destruct (sliding_run_exhausted xs win Hhow) as [Hlen _].
    rewrite <- Hlen, firstn_app, Nat.sub_diag, firstn_O, app_nil_r.
    apply firstn_all.
  - rewrite app_nil_r. apply firstn_all2. apply sliding_run_length.
  - rewrite app_nil_r. apply firstn_all2. apply sliding_run_length.
Qed.

End SlidingRuns.

Section Magnitudes.

Lemma sum_moderate (win : list Z) :
  Forall moderate win -> win <> [] ->
  Z.abs (sum win) < 2 ^ 1023 * Z.of_nat (length win).
Proof.
  intros Hwin Hne.
  assert (H : Z.abs (sum win) <= (2 ^ 1023 - 1) * Z.of_nat (length win)).
  { clear Hne. induction Hwin as [|x win Hx _ IH].
    - unfold sum. simpl. lia.
    - rewrite sum_cons. change (length (x :: win)) with (S (length win)).
      rewrite Nat2Z.inj_succ. unfold moderate in Hx. lia. }
  destruct win; [contradiction|].
  change (length (z :: win)) with (S (length win)) in *.
  rewrite Nat2Z.inj_succ in *. lia.
Qed.

Lemma mean_moderate (win : list Z) :
  Forall moderate win -> win <> [] -> exists q, mean win = Ok q.
Proof.
  intros Hwin Hne. unfold mean. apply truediv_moderate.
  - destruct win; [contradiction|simpl; lia].
  - apply sum_moderate; assumption.
Qed.

Lemma sliding_run_moderate (n : nat) (data : list Z) :
  (1 <= n)%nat -> Forall moderate data ->
  forall win, Forall moderate win ->
    how (sliding_run n win data) = Exhausted.
Proof.
  intros Hn Hdata.
  induction Hdata as [|x data Hx _ IH]; intros win Hwin; cbn [sliding_run].
  - reflexivity.
  - assert (Hwin' : Forall moderate (lastn n (win ++ [x]))).
    { apply Forall_lastn, Forall_app. split; [exact Hwin|].
      constructor; [exact Hx|constructor]. }
    destruct (mean_moderate _ Hwin' (lastn_snoc_nonempty n win x Hn))
      as [q Hq].
    rewrite Hq. cbn [how]. apply IH, Hwin'.
Qed.

Lemma mean_singleton (x : Z) : small x -> mean [x] = Ok (inject_Z x).
Proof.
  intro Hx. unfold mean. rewrite sum_singleton.
  change (Z.of_nat (length [x])) with 1. apply truediv_by_one, Hx.
Qed.

Lemma sliding_run_one (data : list Z) :
  Forall small data ->
  forall win, sliding_run 1 win data = Run (map inject_Z data) Exhausted [].
Proof.
  induction 1 as [|x data Hx _ IH]; intro win; cbn [sliding_run].
  - reflexivity.
  - rewrite lastn_one_snoc, (mean_singleton x Hx), IH. reflexivity.
Qed.

End Magnitudes.

(** ** The three generators as sliding runs *)

Lemma list_moving_average_eq (W : Z) (data : list Z) :
  1 <= W < 2 ^ 63 ->
  list_moving_average data W = sliding_run (Z.to_nat W) [] data.
Proof.
  intros [HW Hmax]. unfold list_moving_average.
  apply (consume_slides W _ _ (basic_slides W HW Hmax)).
  split; reflexivity.
Qed.

Lemma list_moving_average_explicit_eq (W : Z) (data : list Z) :
  1 <= W ->
  list_moving_average_explicit data W = sliding_run (Z.to_nat W) [] data.
Proof.
  intro HW. unfold list_moving_average_explicit.
  apply (consume_slides W _ _ (explicit_slides W HW)).
  split; reflexivity.
Qed.

Lemma list_moving_average_optimized_eq (W : Z) (data : list Z) :
  1 <= W ->
  list_moving_average_optimized data W = sliding_run (Z.to_nat W) [] data.
Proof.
  intro HW. unfold list_moving_average_optimized.
  apply (consume_slides W _ _ (optimized_slides W HW)).
  split; reflexivity.
Qed.

(** A window size that no [Py_ssize_t] holds stops [moving_average] at its
    first resumption, before it looks at the input. *)
Lemma moving_average_beyond_ssize_t (W : Z) (s : stream) :
  2 ^ 63 <= W ->
  moving_average_next (moving_average W) s = Raised OverflowError s.
Proof.
  intro HW. unfold moving_average_next, moving_average, next,
    Basic.prologue, deque_new, fits_ssize_t.
  destruct (Z.ltb_spec W (2 ^ 63)) as [H|_]; [lia|].
  rewrite andb_false_r. reflexivity.
Qed.

Lemma list_moving_average_beyond_ssize_t (W : Z) (data : list Z) :
  2 ^ 63 <= W ->
  list_moving_average data W = Run [] (Failed OverflowError) data.
Proof.
  intro HW. unfold list_moving_average, consume. cbn [drive].
  rewrite (moving_average_beyond_ssize_t W data HW). reflexivity.
Qed.

Lemma length_recent (n : nat) (data : list Z) (i : nat) :
  (n <= S i)%nat -> (i < length data)%nat ->
  length (recent n data i) = n.
Proof.
  intros Hn Hi. unfold recent. rewrite length_firstn, length_skipn. lia.
Qed.

(** ** The moving average: what the specification states *)

(** C1, as stated, fails on the code: the mean of [20, 60, 5] is 85/3,
    which no double holds, and the output is the double next to it. *)
Lemma exact_mean_not_returned :
  recent 3 [10; 20; 60; 5] 3 = [20; 60; 5]
  /\ ~ (exists q : Q,
          nth_error (outputs (list_moving_average [10; 20; 60; 5] 3)) 3
          = Some q
          /\ (q == inject_Z (sum (recent 3 [10; 20; 60; 5]%Z 3))
                  / inject_Z 3)%Q).
Proof.
  split; [reflexivity|].
  intros (q & Hq & Heq). vm_compute in Hq. injection Hq as <-.
  vm_compute in Heq. discriminate Heq.
Qed.

(** C1, amended.  With a window size [W >= 1], an output produced at a
    position [i] by which at least [W] inputs have been consumed is the
    quotient [sum / W] of the [W] inputs that end at [i], as the division
    of ints returns it: their mean rounded to the nearest double, and the
    mean itself when it is an int of at most 53 bits.  On
    [[1, 2, 3, 4, 5, 6, 7]] with [W = 3] the outputs are
    [[1.0, 1.5, 2.0, 3.0, 4.0, 5.0, 6.0]]. *)
Theorem moving_average_rounded_mean :
  (forall (W : Z) (data : list Z) (i : nat) (q : Q),
      1 <= W -> (Z.to_nat W <= S i)%nat ->
      nth_error (outputs (list_moving_average data W)) i = Some q ->
      length (recent (Z.to_nat W) data i) = Z.to_nat W
      /\ truediv (sum (recent (Z.to_nat W) data i)) W = Ok q
      /\ (forall c : Z,
             sum (recent (Z.to_nat W) data i) = c * W -> small c ->
             q = inject_Z c))
  /\ outputs (list_moving_average [1; 2; 3; 4; 5; 6; 7] 3)
     = [1; 3 # 2; 2; 3; 4; 5; 6]%Q.
Proof.
  split; [|vm_compute; reflexivity].
  intros W data i q HW Hfull Hq.
  destruct (Z.lt_ge_cases W (2 ^ 63)) as [Hmax|Hmax].
  - rewrite (list_moving_average_eq W data (conj HW Hmax)) in Hq.
    destruct (nth_error_sliding_run _ _ _ _ _ Hq) as [Hi Hmean].
    rewrite app_nil_l, (lastn_firstn _ i data Hfull Hi) in Hmean.
    fold (recent (Z.to_nat W) data i) in Hmean.
    pose proof (length_recent _ data i Hfull Hi) as Hlen.
    unfold mean in Hmean. rewrite Hlen, Z2Nat.id in Hmean by lia.
    split; [exact Hlen|]. split; [exact Hmean|].
    intros c Hc Hsmall. rewrite Hc, truediv_exact in Hmean by (lia || assumption).
    injection Hmean as <-. reflexivity.
  - rewrite (list_moving_average_beyond_ssize_t W data Hmax) in Hq.
    destruct i; discriminate Hq.
Qed.

Lemma moving_average_rounded_mean_witness :
  1 <= 3 /\ (Z.to_nat 3 <= 5)%nat
  /\ nth_error (outputs (list_moving_average [1; 2; 3; 4; 5; 6; 7] 3)) 4
     = Some (inject_Z 4)
  /\ truediv (sum (recent (Z.to_nat 3) [1; 2; 3; 4; 5; 6; 7] 4)) 3
     = Ok (inject_Z 4).
Proof.
  assert (H1 : 1 <= 3) by lia.
  assert (H2 : (Z.to_nat 3 <= 5)%nat) by (simpl; lia).
  assert (H3 : nth_error
                 (outputs (list_moving_average [1; 2; 3; 4; 5; 6; 7] 3)) 4
               = Some (inject_Z 4)) by (vm_compute; reflexivity).
  split; [exact H1|]. split; [exact H2|]. split; [exact H3|].
  exact (proj1 (proj2 (proj1 moving_average_rounded_mean 3
                         [1; 2; 3; 4; 5; 6; 7] 4%nat (inject_Z 4)
                         H1 H2 H3))).
Defined.

(** C3, as stated, fails on the code: with [W = 1] the input
    [[10 ** 400, 1]] gives no output at all, the first quotient being
    beyond the doubles; and with [W = 2 ** 63] even the empty input ends
    in an error. *)
Lemma overflow_cuts_output_short :
  list_moving_average [10 ^ 400; 1] 1 = Run [] (Failed OverflowError) [1]
  /\ length (outputs (list_moving_average [10 ^ 400; 1] 1))
     <> length [10 ^ 400; 1]
  /\ list_moving_average [] (2 ^ 63) = Run [] (Failed OverflowError) [].
Proof.
  assert (H : list_moving_average [10 ^ 400; 1] 1
              = Run [] (Failed OverflowError) [1])
    by (vm_compute; reflexivity).
  split; [exact H|]. split.
  - rewrite H. simpl. discriminate.
  - vm_compute; reflexivity.
Qed.

(** C3, amended.  With [1 <= W < 2 ** 63] the run over a finite input
    never has more outputs than inputs.  It ends normally, with exactly
    as many outputs as inputs, unless a quotient is beyond the doubles;
    then it ends there with [OverflowError] and fewer outputs.  Inputs
    below [2 ** 1023] in magnitude never overflow.  The empty input gives
    the empty output and no error. *)
Theorem moving_average_length_unless_overflow (W : Z) (data : list Z) :
  1 <= W < 2 ^ 63 ->
  let r := list_moving_average data W in
  (how r = Exhausted /\ length (outputs r) = length data
   \/ how r = Failed OverflowError
      /\ (length (outputs r) < length data)%nat)
  /\ (Forall moderate data ->
      how r = Exhausted /\ length (outputs r) = length data)
  /\ list_moving_average [] W = Run [] Exhausted [].
Proof.
  intros HW r. unfold r.
  rewrite !(list_moving_average_eq W _ HW).
  assert (Hn : (1 <= Z.to_nat W)%nat) by lia.
  repeat split.
  - destruct (sliding_run_ends (Z.to_nat W) data Hn []) as [H|H].
    + left. split; [exact H|]. apply sliding_run_exhausted, H.
    + right. split; [exact H|]. eapply sliding_run_failed, H.
  - apply sliding_run_moderate; [exact Hn|assumption|constructor].
  - apply sliding_run_exhausted.
    apply sliding_run_moderate; [exact Hn|assumption|constructor].
Qed.

Lemma moving_average_length_unless_overflow_witness :
  1 <= 2 < 2 ^ 63
  /\ Forall moderate [4; 8; 6]
  /\ how (list_moving_average [4; 8; 6] 2) = Exhausted
  /\ length (outputs (list_moving_average [4; 8; 6] 2)) = length [4; 8; 6].
Proof.
  assert (H1 : 1 <= 2 < 2 ^ 63) by lia.
  assert (H2 : Forall moderate [4; 8; 6])
    by (repeat constructor; unfold moderate; simpl Z.abs;
        apply Z.pow_gt_lin_r || (apply (Z.lt_trans _ (2 ^ 4)); [lia|];
        apply Z.pow_lt_mono_r; lia)).
  split; [exact H1|]. split; [exact H2|].
  exact (proj1 (proj2 (moving_average_length_unless_overflow 2 [4; 8; 6] H1))
           H2).
Defined.

(** C4, as stated, fails on the code: with [W = 1] the first output for
    the input [2 ** 53 + 1] is [2 ** 53], the double next to it. *)
Lemma first_output_is_rounded :
  hd_error (outputs (list_moving_average [2 ^ 53 + 1] 1))
  = Some (inject_Z (2 ^ 53))
  /\ hd_error (outputs (list_moving_average [2 ^ 53 + 1] 1))
     <> Some (inject_Z (2 ^ 53 + 1)).
Proof.
  assert (H : hd_error (outputs (list_moving_average [2 ^ 53 + 1] 1))
              = Some (inject_Z (2 ^ 53))) by (vm_compute; reflexivity).
  split; [exact H|]. rewrite H. vm_compute. discriminate.
Qed.

(** C4, amended.  With [1 <= W < 2 ** 63] and a non-empty input, the
    first request consumes the first input [x] only and divides it by
    one: the first output is [x] as a double, which is [x] itself when
    [x] has at most 53 bits; when [x] is beyond the doubles the request
    fails with [OverflowError] and there is no output. *)
Theorem moving_average_first_rounded (W : Z) (x : Z) (data : list Z) :
  1 <= W < 2 ^ 63 ->
  match truediv x 1 with
  | Ok q =>
      (exists g, moving_average_next (moving_average W) (x :: data)
                 = Yield q g data)
      /\ hd_error (outputs (list_moving_average (x :: data) W)) = Some q
  | Raise e =>
      moving_average_next (moving_average W) (x :: data) = Raised e data
      /\ list_moving_average (x :: data) W = Run [] (Failed e) data
  end
  /\ (small x ->
      (exists g, moving_average_next (moving_average W) (x :: data)
                 = Yield (inject_Z x) g data)
      /\ hd_error (outputs (list_moving_average (x :: data) W))
         = Some (inject_Z x)).
Proof.
  intros [HW Hmax].
  assert (Hone : mean (lastn (Z.to_nat W) ([] ++ [x])) = truediv x 1).
  { rewrite lastn_all by (simpl; lia). reflexivity. }
  assert (Hgen :
    match truediv x 1 with
    | Ok q =>
        (exists g, moving_average_next (moving_average W) (x :: data)
                   = Yield q g data)
        /\ hd_error (outputs (list_moving_average (x :: data) W)) = Some q
    | Raise e =>
        moving_average_next (moving_average W) (x :: data) = Raised e data
        /\ list_moving_average (x :: data) W = Run [] (Failed e) data
    end).
  { destruct (basic_slides W HW Hmax (moving_average W) []) as [_ Hstep];
      [split; reflexivity|].
    specialize (Hstep x data). cbv zeta in Hstep.
    rewrite (list_moving_average_eq W _ (conj HW Hmax)).
    cbn [sliding_run]. rewrite Hone in *.
    destruct (truediv x 1) as [q|e].
    - destruct Hstep as (g & Hyield & _). split; [exists g; exact Hyield|].
      reflexivity.
    - split; [exact Hstep|reflexivity]. }
  split; [exact Hgen|].
  intro Hx. rewrite (truediv_by_one x Hx) in Hgen. exact Hgen.
Qed.

Lemma moving_average_first_rounded_witness :
  1 <= 5 < 2 ^ 63 /\ small 9
  /\ (exists g, moving_average_next (moving_average 5) (9 :: [2; 7])
                = Yield (inject_Z 9) g [2; 7])
  /\ hd_error (outputs (list_moving_average (9 :: [2; 7]) 5))
     = Some (inject_Z 9).
Proof.
  assert (H1 : 1 <= 5 < 2 ^ 63) by lia.
  assert (H2 : small 9) by (unfold small; simpl Z.abs; lia).
  split; [exact H1|]. split; [exact H2|].
  exact (proj2 (moving_average_first_rounded 5 9 [2; 7] H1) H2).
Defined.

(** C5, as stated, fails on the code: with [W = 2 ** 63],
    [moving_average] cannot build its bounded deque and fails at once,
    while the other two, whose deques are unbounded, run normally. *)
Lemma deque_bound_breaks_agreement :
  list_moving_average [1; 2] (2 ^ 63) = Run [] (Failed OverflowError) [1; 2]
  /\ list_moving_average_explicit [1; 2] (2 ^ 63)
     = Run [1; 3 # 2]%Q Exhausted []
  /\ list_moving_average_explicit [1; 2] (2 ^ 63)
     <> list_moving_average [1; 2] (2 ^ 63).
Proof.
  assert (H1 : list_moving_average [1; 2] (2 ^ 63)
               = Run [] (Failed OverflowError) [1; 2])
    by (vm_compute; reflexivity).
  assert (H2 : list_moving_average_explicit [1; 2] (2 ^ 63)
               = Run [1; 3 # 2]%Q Exhausted [])
    by (vm_compute; reflexivity).
  split; [exact H1|]. split; [exact H2|].
  rewrite H1, H2. discriminate.
Qed.

(** C5, amended.  With [1 <= W < 2 ** 63] the three implementations give
    the same run on the same input: the same outputs and the same end,
    an overflow of a quotient included.  [moving_average_explicit] and
    [moving_average_optimized] do so for every [W >= 1]. *)
Theorem implementations_agree_in_range (W : Z) (data : list Z) :
  1 <= W ->
  list_moving_average_optimized data W = list_moving_average_explicit data W
  /\ (W < 2 ^ 63 ->
      list_moving_average_explicit data W = list_moving_average data W
      /\ list_moving_average_optimized data W = list_moving_average data W).
Proof.
  intro HW.
  rewrite list_moving_average_explicit_eq,
    list_moving_average_optimized_eq by exact HW.
  split; [reflexivity|]. intro Hmax.
  rewrite (list_moving_average_eq W data (conj HW Hmax)).
  split; reflexivity.
Qed.

Lemma implementations_agree_in_range_witness :
  1 <= 2
  /\ list_moving_average_optimized [10; 20; 60; 5] 2
     = list_moving_average_explicit [10; 20; 60; 5] 2
  /\ (2 < 2 ^ 63 ->
      list_moving_average_explicit [10; 20; 60; 5] 2
      = list_moving_average [10; 20; 60; 5] 2
      /\ list_moving_average_optimized [10; 20; 60; 5] 2
         = list_moving_average [10; 20; 60; 5] 2).
Proof.
  assert (H : 1 <= 2) by lia.
  split; [exact H|]. exact (implementations_agree_in_range 2 [10; 20; 60; 5] H).
Defined.

(** C6. In [moving_average_optimized] with [W >= 1], in every frame the
    generator suspends in after processing an element, [running_sum] is
    the sum of the window and the window holds at most [W] values. *)
Theorem optimized_invariant_holds (W : Z) (g : gen Optimized.locals) :
  1 <= W ->
  reachable moving_average_optimized_next (moving_average_optimized W) g ->
  optimized_invariant W g.
Proof.
  intros HW Hreach.
  destruct (reachable_frame W _ _ (optimized_slides W HW)
              (moving_average_optimized W) g) as [win Hg];
    [split; reflexivity|exact Hreach|].
  destruct g as [w'|l]; simpl in *; [exact I|].
  destruct Hg as (_ & Hwin & Hsum & _ & Hlen).
  rewrite Hwin, Hsum. unfold len. simpl. split; [reflexivity|lia].
Qed.

Lemma optimized_invariant_holds_witness :
  1 <= 2
  /\ optimized_invariant 2
       (Suspended (Optimized.Locals (Deque [4; 6] None) 10 2)).
Proof.
  assert (H : 1 <= 2) by lia.
  split; [exact H|].
  apply (optimized_invariant_holds 2 _ H).
  eapply (reach_yield _ _ _ [6] _ _ []).
  - eapply (reach_yield _ _ _ [4; 6] _ _ [6]).
    + eapply (reach_yield _ _ _ [1; 4; 6] _ _ [4; 6]).
      * apply reach_call.
      * vm_compute; reflexivity.
    + vm_compute; reflexivity.
  - vm_compute; reflexivity.
Defined.

(** C7, as stated, fails on the code: with [W = 1] the input
    [2 ** 53 + 1] comes out as [2 ** 53]. *)
Lemma identity_fails_beyond_53_bits :
  list_moving_average [2 ^ 53 + 1] 1 = Run [inject_Z (2 ^ 53)] Exhausted []
  /\ outputs (list_moving_average [2 ^ 53 + 1] 1)
     <> map inject_Z [2 ^ 53 + 1].
Proof.
  assert (H : list_moving_average [2 ^ 53 + 1] 1
              = Run [inject_Z (2 ^ 53)] Exhausted [])
    by (vm_compute; reflexivity).
  split; [exact H|]. rewrite H. vm_compute. discriminate.
Qed.

(** C7, amended.  With [W = 1] the outputs are the inputs, and the run
    ends normally, on every input whose values have at most 53 bits
    (magnitude at most [2 ** 53]). *)
Theorem moving_average_identity_on_small (data : list Z) :
  Forall small data ->
  list_moving_average data 1 = Run (map inject_Z data) Exhausted [].
Proof.
  intro Hdata. rewrite list_moving_average_eq by lia.
  change (Z.to_nat 1) with 1%nat. apply sliding_run_one, Hdata.
Qed.

Lemma moving_average_identity_on_small_witness :
  Forall small [5; -3; 7]
  /\ list_moving_average [5; -3; 7] 1
     = Run (map inject_Z [5; -3; 7]) Exhausted [].
Proof.
  assert (H : Forall small [5; -3; 7])
    by (repeat constructor; unfold small; simpl Z.abs; lia).
  split; [exact H|]. exact (moving_average_identity_on_small [5; -3; 7] H).
Defined.

Section NoZeroDivision.

Context {L : Type}.
Variable W : Z.
Variable nxt : gen L -> stream -> outcome L.
Variable frame : gen L -> list Z -> Prop.
Variable window : L -> deque.
Hypothesis W_pos : 1 <= W.
Hypothesis sliding : slides W nxt frame.
Hypothesis frame_window :
  forall l win, frame (Suspended l) win ->
                items (window l) = win /\ win <> [].

(** Every frame the generator reaches has a non-empty window once it
    has divided, and no resumption of it divides by zero. *)
Lemma reachable_safe (g0 g : gen L) :
  frame g0 [] -> reachable nxt g0 g ->
  divisor_nonzero window g
  /\ forall s s', nxt g s <> Raised ZeroDivisionError s'.
Proof.
  intros H0 Hreach.
  destruct (reachable_frame W nxt frame sliding g0 g H0 Hreach) as [win Hg].
  split.
  - destruct g as [w'|l]; simpl; [exact I|].
    destruct (frame_window l win Hg) as [Hitems Hne].
    unfold len. rewrite Hitems. destruct win; [contradiction|simpl; lia].
  - intros s s' Hraised.
    pose proof (frame_raises_overflow_only W nxt frame sliding g win s s'
                  ZeroDivisionError W_pos Hg Hraised) as E.
    discriminate E.
Qed.

End NoZeroDivision.

Lemma reachable_beyond_ssize_t (W : Z) (g : gen Basic.locals) :
  2 ^ 63 <= W ->
  reachable moving_average_next (moving_average W) g ->
  g = moving_average W.
Proof.
  intros HW Hreach. induction Hreach as [|g s v g' s' _ IH Hyield].
  - reflexivity.
  - subst g. rewrite (moving_average_beyond_ssize_t W s HW) in Hyield.
    discriminate.
Qed.

(** C8. With [W >= 1], in each of the three generators every division is
    by the length of a non-empty window: in every frame reached, the
    window just divided by is non-empty, and no resumption raises
    [ZeroDivisionError]. *)
Theorem division_by_zero_unreachable (W : Z) :
  1 <= W ->
  (forall g, reachable moving_average_next (moving_average W) g ->
     divisor_nonzero Basic.window g
     /\ forall s s', moving_average_next g s <> Raised ZeroDivisionError s')
  /\ (forall g,
        reachable moving_average_explicit_next (moving_average_explicit W) g ->
        divisor_nonzero Explicit.window g
        /\ forall s s',
             moving_average_explicit_next g s <> Raised ZeroDivisionError s')
  /\ (forall g,
        reachable moving_average_optimized_next (moving_average_optimized W) g ->
        divisor_nonzero Optimized.window g
        /\ forall s s',
             moving_average_optimized_next g s
             <> Raised ZeroDivisionError s').
Proof.
  intro HW. split; [|split]; intros g Hg.
  - destruct (Z.lt_ge_cases W (2 ^ 63)) as [Hmax|Hmax].
    + apply (reachable_safe W _ (basic_frame W) Basic.window HW
               (basic_slides W HW Hmax)) with (g0 := moving_average W);
        [|split; reflexivity|exact Hg].
      intros l win Hl. simpl in Hl.
      destruct Hl as (-> & Hne & _). split; [reflexivity|exact Hne].
    + rewrite (reachable_beyond_ssize_t W g Hmax Hg).
      split; [exact I|]. intros s s'.
      rewrite (moving_average_beyond_ssize_t W s Hmax). discriminate.
  - apply (reachable_safe W _ (explicit_frame W) Explicit.window HW
             (explicit_slides W HW)) with (g0 := moving_average_explicit W);
      [|split; reflexivity|exact Hg].
    intros l win Hl. simpl in Hl.
    destruct Hl as (_ & -> & Hne & _). split; [reflexivity|exact Hne].
  - apply (reachable_safe W _ (optimized_frame W) Optimized.window HW
             (optimized_slides W HW)) with (g0 := moving_average_optimized W);
      [|split; reflexivity|exact Hg].
    intros l win Hl. simpl in Hl.
    destruct Hl as (_ & -> & _ & Hne & _). split; [reflexivity|exact Hne].
Qed.

Lemma division_by_zero_unreachable_witness :
  1 <= 1
  /\ divisor_nonzero Optimized.window
       (Suspended (Optimized.Locals (Deque [8] None) 8 1))
  /\ forall s s',
       moving_average_optimized_next
         (Suspended (Optimized.Locals (Deque [8] None) 8 1)) s
       <> Raised ZeroDivisionError s'.
Proof.
  assert (H : 1 <= 1) by lia.
  split; [exact H|].
  apply (proj2 (proj2 (division_by_zero_unreachable 1 H))).
  eapply (reach_yield _ _ _ [8] _ _ []).
  - eapply (reach_yield _ _ _ [3; 8] _ _ [8]).
    + apply reach_call.
    + vm_compute; reflexivity.
  - vm_compute; reflexivity.
Defined.

(** ** Window sizes below one *)

(** C2, as stated, fails on the code: with [W = 0] and the input
    [[1, 2]], the failure is a division by zero, and it comes after the
    first element has been consumed. *)
Lemma zero_window_not_rejected :
  list_moving_average [1; 2] 0 = Run [] (Failed ZeroDivisionError) [2]
  /\ ~ rejected_up_front (list_moving_average [1; 2] 0) [1; 2].
Proof.
  split; [vm_compute; reflexivity|].
  intros [Hhow _]. vm_compute in Hhow. discriminate Hhow.
Qed.

(** C2, amended.  With [W <= 0], [moving_average] never produces an
    output.  For [-2 ** 63 <= W < 0] the first request fails with an
    invalid-argument error and the input is untouched; below [-2 ** 63]
    it fails with [OverflowError], the input untouched as well.  For
    [W = 0] an empty input ends normally without error, and on a
    non-empty input the first request consumes one element and fails with
    a division by zero. *)
Theorem moving_average_nonpositive_window (W : Z) (data : list Z) :
  W <= 0 ->
  outputs (list_moving_average data W) = []
  /\ (- 2 ^ 63 <= W < 0 ->
      moving_average_next (moving_average W) data = Raised ValueError data
      /\ how (list_moving_average data W) = Failed ValueError
      /\ remaining (list_moving_average data W) = data)
  /\ (W < - 2 ^ 63 ->
      moving_average_next (moving_average W) data
      = Raised OverflowError data
      /\ how (list_moving_average data W) = Failed OverflowError
      /\ remaining (list_moving_average data W) = data)
  /\ (W = 0 ->
      match data with
      | [] => list_moving_average data W = Run [] Exhausted []
      | _ :: rest =>
          list_moving_average data W = Run [] (Failed ZeroDivisionError) rest
      end).
Proof.
  intro HW.
  assert (Hzero : W = 0 ->
            match data with
            | [] => list_moving_average data W = Run [] Exhausted []
            | _ :: rest =>
                list_moving_average data W
                = Run [] (Failed ZeroDivisionError) rest
            end).
  { intros ->. destruct data; reflexivity. }
  assert (Hneg : - 2 ^ 63 <= W < 0 ->
            moving_average_next (moving_average W) data
            = Raised ValueError data).
  { intros [Hlo Hhi]. unfold moving_average_next, moving_average, next,
      Basic.prologue, deque_new, fits_ssize_t.
    destruct (Z.leb_spec (- 2 ^ 63) W) as [_|H]; [|lia].
    destruct (Z.ltb_spec W (2 ^ 63)) as [_|H]; [|lia].
    destruct (Z.ltb_spec W 0) as [_|H]; [|lia]. reflexivity. }
  assert (Hlow : W < - 2 ^ 63 ->
            moving_average_next (moving_average W) data
            = Raised OverflowError data).
  { intro Hlo. unfold moving_average_next, moving_average, next,
      Basic.prologue, deque_new, fits_ssize_t.
    destruct (Z.leb_spec (- 2 ^ 63) W) as [H|_]; [lia|]. reflexivity. }
  assert (Hrun : forall e,
            moving_average_next (moving_average W) data = Raised e data ->
            list_moving_average data W = Run [] (Failed e) data).
  { intros e He. unfold list_moving_average, consume. cbn [drive].
    rewrite He. reflexivity. }
  split; [|split; [|split]].
  - destruct (Z.eq_dec W 0) as [E|N].
    + specialize (Hzero E). destruct data; rewrite Hzero; reflexivity.
    + destruct (Z.le_gt_cases (- 2 ^ 63) W) as [H|H].
      * rewrite (Hrun _ (Hneg ltac:(lia))). reflexivity.
      * rewrite (Hrun _ (Hlow H)). reflexivity.
  - intro H. rewrite (Hrun _ (Hneg H)). repeat split. exact (Hneg H).
  - intro H. rewrite (Hrun _ (Hlow H)). repeat split. exact (Hlow H).
  - exact Hzero.
Qed.

Lemma moving_average_nonpositive_window_witness :
  -2 <= 0
  /\ outputs (list_moving_average [1; 2] (-2)) = []
  /\ (- 2 ^ 63 <= -2 < 0 ->
      moving_average_next (moving_average (-2)) [1; 2]
      = Raised ValueError [1; 2]
      /\ how (list_moving_average [1; 2] (-2)) = Failed ValueError
      /\ remaining (list_moving_average [1; 2] (-2)) = [1; 2]).
Proof.
  assert (H : -2 <= 0) by lia.
  split; [exact H|].
  split; [exact (proj1 (moving_average_nonpositive_window (-2) [1; 2] H))|].
  exact (proj1 (proj2 (moving_average_nonpositive_window (-2) [1; 2] H))).
Defined.

(** ** The decorators *)

Import Decorators.

(** C9. When [func] returns the string [r], the function decorated by
    [shout] returns [r.upper() + "!!!"]; [func] is called once, with the
    arguments of the call, and what it did to the world stands. *)
Theorem shout_returns_upper_bang
    (World Exc Args : Type) (upper : string -> string)
    (func : Args -> call World Exc string)
    (args : Args) (w w' : World) (r : string) :
  func args w = (inr r, w') ->
  shout World Exc Args upper func args w
  = (inr (upper r ++ "!!!")%string, w').
Proof.
  intro Hfunc. unfold shout, and_then, returns. rewrite Hfunc. reflexivity.
Qed.

Lemma shout_returns_upper_bang_witness :
  greet "alice" tt = (inr "hello alice"%string, tt)
  /\ shout unit Empty_set string upper_ascii greet "alice"%string tt
     = (inr "HELLO ALICE!!!"%string, tt).
Proof.
  assert (H : greet "alice" tt = (inr "hello alice"%string, tt))
    by reflexivity.
  split; [exact H|].
  exact (shout_returns_upper_bang unit Empty_set string upper_ascii greet
           "alice"%string tt tt "hello alice"%string H).
Defined.




(** * Further properties of the code *)

(** ** Every position, prefixes and partial consumption *)

(** X1. With [W >= 1], an output produced at any position [i] is the
    quotient, rounded as the division of ints rounds it, of the sum of
    the last [min(W, i + 1)] inputs up to [i] by their number; while
    fewer than [W] inputs have been consumed these are all the inputs so
    far. *)
Theorem moving_average_mean_of_available
    (W : Z) (data : list Z) (i : nat) (q : Q) :
  1 <= W ->
  nth_error (outputs (list_moving_average data W)) i = Some q ->
  let available := lastn (Z.to_nat W) (firstn (S i) data) in
  length available = Nat.min (Z.to_nat W) (S i)
  /\ ((S i <= Z.to_nat W)%nat -> available = firstn (S i) data)
  /\ truediv (sum available) (Z.of_nat (Nat.min (Z.to_nat W) (S i))) = Ok q.
Proof.
  intros HW Hq available.
  destruct (Z.lt_ge_cases W (2 ^ 63)) as [Hmax|Hmax].
  - rewrite (list_moving_average_eq W data (conj HW Hmax)) in Hq.
    destruct (nth_error_sliding_run _ _ _ _ _ Hq) as [Hi Hmean].
    rewrite app_nil_l in Hmean. fold available in Hmean.
    assert (Hlen : length available = Nat.min (Z.to_nat W) (S i)).
    { unfold available. rewrite length_lastn, length_firstn. lia. }
    split; [exact Hlen|]. split.
    + intro Hwarm. apply lastn_all. rewrite length_firstn. lia.
    + unfold mean in Hmean. rewrite Hlen in Hmean. exact Hmean.
  - rewrite (list_moving_average_beyond_ssize_t W data Hmax) in Hq.
    destruct i; discriminate Hq.
Qed.

Lemma moving_average_mean_of_available_witness :
  1 <= 3
  /\ nth_error (outputs (list_moving_average [10; 20; 60; 5] 3)) 1
     = Some (inject_Z 15)
  /\ truediv (sum (lastn (Z.to_nat 3) (firstn 2 [10; 20; 60; 5])))
       (Z.of_nat (Nat.min (Z.to_nat 3) 2))
     = Ok (inject_Z 15).
Proof.
  assert (H1 : 1 <= 3) by lia.
  assert (H2 : nth_error (outputs (list_moving_average [10; 20; 60; 5] 3)) 1
               = Some (inject_Z 15)) by (vm_compute; reflexivity).
  split; [exact H1|]. split; [exact H2|].
  exact (proj2 (proj2 (moving_average_mean_of_available 3 [10; 20; 60; 5]
                         1%nat (inject_Z 15) H1 H2))).
Defined.

(** X2. With [W >= 1], the outputs for an input are a prefix of the
    outputs for any longer input: a value once produced does not depend
    on what comes later in the stream. *)
Theorem moving_average_prefix (W : Z) (xs ys : list Z) :
  1 <= W ->
  firstn (length xs) (outputs (list_moving_average (xs ++ ys) W))
  = outputs (list_moving_average xs W).
Proof.
  intro HW. destruct (Z.lt_ge_cases W (2 ^ 63)) as [Hmax|Hmax].
  - rewrite !(list_moving_average_eq W _ (conj HW Hmax)).
    apply sliding_run_prefix.
  - rewrite !(list_moving_average_beyond_ssize_t W _ Hmax).
    apply firstn_nil.
Qed.

Lemma moving_average_prefix_witness :
  1 <= 2
  /\ firstn (length [3; 9]) (outputs (list_moving_average ([3; 9] ++ [1; 1]) 2))
     = outputs (list_moving_average [3; 9] 2).
Proof.
  assert (H : 1 <= 2) by lia.
  split; [exact H|]. exact (moving_average_prefix 2 [3; 9] [1; 1] H).
Defined.

Section Consumption.

Context {L : Type}.
Variable prologue : Z -> result L.
Variable body : L -> Z -> result (Q * L).

(** A resumption that yields has taken exactly one element. *)
Lemma next_consumes (g g' : gen L) (s s' : stream) (v : Q) :
  next prologue body g s = Yield v g' s' -> exists x, s = x :: s'.
Proof.
  unfold next, for_value_in. intro H.
  destruct g as [ws|l].
  - destruct (prologue ws) as [l|e]; [|discriminate].
    destruct s as [|x s]; [discriminate|].
    destruct (body l x) as [[a l']|e]; [|discriminate].
    injection H as _ _ <-. exists x; reflexivity.
  - destruct s as [|x s]; [discriminate|].
    destruct (body l x) as [[a l']|e]; [|discriminate].
    injection H as _ _ <-. exists x; reflexivity.
Qed.

Lemma drive_prefix (k : nat) :
  forall (fuel : nat) (g : gen L) (s : stream),
    (k <= length (outputs (drive (next prologue body) fuel g s)))%nat ->
    drive (next prologue body) k g s
    = Run (firstn k (outputs (drive (next prologue body) fuel g s)))
          Unfinished (skipn k s).
Proof.
  induction k as [|k IH]; intros fuel g s Hk; [reflexivity|].
  destruct fuel as [|fuel]; [simpl in Hk; lia|].
  cbn [drive] in *.
  destruct (next prologue body g s) as [v g' s'| |] eqn:Hy;
    try (simpl in Hk; lia).
  destruct (next_consumes g g' s s' v Hy) as [x ->].
  cbn [outputs] in *. simpl in Hk.
  rewrite (IH fuel g' s') by lia. reflexivity.
Qed.

Lemma drive_remaining (fuel : nat) :
  forall (g : gen L) (s : stream),
    (length (remaining (drive (next prologue body) fuel g s)) <= length s)%nat.
Proof.
  induction fuel as [|fuel IH]; intros g s; cbn [drive]; [simpl; lia|].
  destruct (next prologue body g s) as [v g' s'|s'|e s'] eqn:Hy.
  - destruct (next_consumes g g' s s' v Hy) as [x ->].
    cbn [remaining]. specialize (IH g' s'). simpl. lia.
  - unfold next, for_value_in in Hy.
    destruct g as [ws|l]; [destruct (prologue ws) as [l|e]; [|discriminate]|];
      (destruct s as [|x s];
       [injection Hy as <-; simpl; lia
       |destruct (body l x) as [[a l']|e]; discriminate]).
  - unfold next, for_value_in in Hy.
    destruct g as [ws|l].
    + destruct (prologue ws) as [l|e0].
      * destruct s as [|x s]; [discriminate|].
        destruct (body l x) as [[a l']|e1]; [discriminate|].
        injection Hy as _ <-. simpl. lia.
      * injection Hy as _ <-. simpl. lia.
    + destruct s as [|x s]; [discriminate|].
      destruct (body l x) as [[a l']|e1]; [discriminate|].
      injection Hy as _ <-. simpl. lia.
Qed.

End Consumption.

(** X3. For each of the three generators and every window size: when
    the generator produces at least [k] values on an input, a consumer
    that asks for only [k] values gets the first [k] of them, and exactly
    [k] elements of the input have been consumed; the rest is still in
    the stream. *)
Theorem generators_are_lazy (W : Z) (data : list Z) (k : nat) :
  ((k <= length (outputs (list_moving_average data W)))%nat ->
   drive moving_average_next k (moving_average W) data
   = Run (firstn k (outputs (list_moving_average data W))) Unfinished
         (skipn k data))
  /\ ((k <= length (outputs (list_moving_average_explicit data W)))%nat ->
      drive moving_average_explicit_next k (moving_average_explicit W) data
      = Run (firstn k (outputs (list_moving_average_explicit data W)))
            Unfinished (skipn k data))
  /\ ((k <= length (outputs (list_moving_average_optimized data W)))%nat ->
      drive moving_average_optimized_next k (moving_average_optimized W) data
      = Run (firstn k (outputs (list_moving_average_optimized data W)))
            Unfinished (skipn k data)).
Proof.
  repeat split; intro Hk; apply drive_prefix; exact Hk.
Qed.

Lemma generators_are_lazy_witness :
  (2 <= length (outputs (list_moving_average_optimized [4; 8; 6; 2]%Z 2%Z)))%nat
  /\ drive moving_average_optimized_next 2 (moving_average_optimized 2)
       [4; 8; 6; 2]
     = Run (firstn 2 (outputs (list_moving_average_optimized [4; 8; 6; 2] 2)))
           Unfinished (skipn 2 [4; 8; 6; 2]).
Proof.
  assert (H : (2 <= length
                      (outputs (list_moving_average_optimized
                                  [4; 8; 6; 2]%Z 2%Z)))%nat)
    by (vm_compute; lia).
  split; [exact H|].
  exact (proj2 (proj2 (generators_are_lazy 2 [4; 8; 6; 2] 2%nat)) H).
Defined.

(** X4. With [W >= 1], once [k >= 1] values have been received from any
    of the three generators, exactly [k] inputs have been consumed and
    the window holds, in order, the last [min(W, k)] of them; in
    [moving_average_optimized] the running sum is their sum. *)
Theorem window_holds_last_inputs (W : Z) (data : list Z) (k : nat) :
  1 <= W -> (1 <= k)%nat ->
  let last := lastn (Z.to_nat W) (firstn k data) in
  (forall g s',
      advance moving_average_next k (moving_average W) data = Some (g, s') ->
      s' = skipn k data /\ (k <= length data)%nat
      /\ exists l, g = Suspended l /\ Basic.window l = Deque last (Some W))
  /\ (forall g s',
         advance moving_average_explicit_next k (moving_average_explicit W)
           data = Some (g, s') ->
         s' = skipn k data /\ (k <= length data)%nat
         /\ exists l, g = Suspended l /\ Explicit.window l = Deque last None)
  /\ (forall g s',
         advance moving_average_optimized_next k (moving_average_optimized W)
           data = Some (g, s') ->
         s' = skipn k data /\ (k <= length data)%nat
         /\ exists l, g = Suspended l
                      /\ Optimized.window l = Deque last None
                      /\ Optimized.running_sum l = sum last).
Proof.
  intros HW Hk last. destruct k as [|k]; [lia|].
  assert (Hlast : (S k <= length data)%nat -> last <> []).
  { intros Hlen E. apply (f_equal (@length Z)) in E. unfold last in E.
    rewrite length_lastn, length_firstn in E. cbn [length] in E. lia. }
  split; [|split]; intros g s' Hadv.
  - destruct (Z.lt_ge_cases W (2 ^ 63)) as [Hmax|Hmax].
    + destruct (advance_slides W _ _ (basic_slides W HW Hmax) k
                  (moving_average W) g [] data s') as (Hs & Hlen & Hg);
        [split; reflexivity|exact Hadv|].
      rewrite app_nil_l in Hg. fold last in Hg.
      split; [exact Hs|]. split; [exact Hlen|].
      destruct g as [w'|l]; simpl in Hg.
      * destruct Hg as [_ E]. destruct (Hlast Hlen E).
      * exists l. split; [reflexivity|apply Hg].
    + cbn [advance] in Hadv.
      rewrite (moving_average_beyond_ssize_t W data Hmax) in Hadv.
      discriminate.
  - destruct (advance_slides W _ _ (explicit_slides W HW) k
                (moving_average_explicit W) g [] data s') as (Hs & Hlen & Hg);
      [split; reflexivity|exact Hadv|].
    rewrite app_nil_l in Hg. fold last in Hg.
    split; [exact Hs|]. split; [exact Hlen|].
    destruct g as [w'|l]; simpl in Hg.
    + destruct Hg as [_ E]. destruct (Hlast Hlen E).
    + exists l. split; [reflexivity|apply Hg].
  - destruct (advance_slides W _ _ (optimized_slides W HW) k
                (moving_average_optimized W) g [] data s') as (Hs & Hlen & Hg);
      [split; reflexivity|exact Hadv|].
    rewrite app_nil_l in Hg. fold last in Hg.
    split; [exact Hs|]. split; [exact Hlen|].
    destruct g as [w'|l]; simpl in Hg.
    + destruct Hg as [_ E]. destruct (Hlast Hlen E).
    + exists l. split; [reflexivity|]. split; apply Hg.
Qed.

Lemma window_holds_last_inputs_witness :
  1 <= 3 /\ (1 <= 4)%nat
  /\ advance moving_average_optimized_next 4 (moving_average_optimized 3)
       [1; 2; 3; 4; 5; 6; 7]
     = Some (Suspended (Optimized.Locals (Deque [2; 3; 4] None) 9 3),
             [5; 6; 7])
  /\ [5; 6; 7] = skipn 4 [1; 2; 3; 4; 5; 6; 7]
  /\ (4 <= length [1; 2; 3; 4; 5; 6; 7])%nat
  /\ exists l,
      Suspended (Optimized.Locals (Deque [2; 3; 4] None) 9 3) = Suspended l
      /\ Optimized.window l
         = Deque (lastn (Z.to_nat 3) (firstn 4 [1; 2; 3; 4; 5; 6; 7])) None
      /\ Optimized.running_sum l
         = sum (lastn (Z.to_nat 3) (firstn 4 [1; 2; 3; 4; 5; 6; 7])).
Proof.
  assert (H1 : 1 <= 3) by lia.
  assert (H2 : (1 <= 4)%nat) by lia.
  assert (H3 : advance moving_average_optimized_next 4
                 (moving_average_optimized 3) [1; 2; 3; 4; 5; 6; 7]
               = Some (Suspended (Optimized.Locals (Deque [2; 3; 4] None) 9 3),
                       [5; 6; 7])) by (vm_compute; reflexivity).
  split; [exact H1|]. split; [exact H2|]. split; [exact H3|].
  exact (proj2 (proj2 (window_holds_last_inputs 3 [1; 2; 3; 4; 5; 6; 7]
                         4%nat H1 H2)) _ _ H3).
Defined.

(** ** Smoothing: bounds and constant streams *)

Section Smoothing.

Lemma scaled_le_int (M e N : Z) :
  (if 0 <=? e then M * 2 ^ e <= N else M <= N * 2 ^ (- e)) ->
  (scaled M e <= inject_Z N)%Q.
Proof.
  unfold scaled. destruct (Z.leb_spec 0 e) as [He|He]; intro H.
  - rewrite <- Zle_Qle. exact H.
  - rewrite Qred_correct. unfold Qle, inject_Z. simpl Qnum. simpl Qden.
    rewrite Z2Pos.id by (apply pow2_pos; lia). lia.
Qed.

Lemma scaled_ge_int (M e N : Z) :
  (if 0 <=? e then N <= M * 2 ^ e else N * 2 ^ (- e) <= M) ->
  (inject_Z N <= scaled M e)%Q.
Proof.
  unfold scaled. destruct (Z.leb_spec 0 e) as [He|He]; intro H.
  - rewrite <- Zle_Qle. exact H.
  - rewrite Qred_correct. unfold Qle, inject_Z. simpl Qnum. simpl Qden.
    rewrite Z2Pos.id by (apply pow2_pos; lia). lia.
Qed.

(** The leading bit of a quotient that has at least 53 bits. *)
Lemma ulp_exponent_nonneg (A b : Z) :
  0 < A -> 0 < b -> 0 <= ulp_exponent A b ->
  52 <= floor_log2_ratio A b
  /\ ulp_exponent A b = floor_log2_ratio A b - 52
  /\ b * (2 ^ 52 * 2 ^ ulp_exponent A b) <= A
  /\ A < b * (2 ^ 53 * 2 ^ ulp_exponent A b).
Proof.
  intros HA Hb He. unfold ulp_exponent in *.
  set (f := floor_log2_ratio A b) in *.
  assert (Hf : 52 <= f) by lia.
  pose proof (floor_log2_ratio_spec A b HA Hb) as Hspec. fold f in Hspec.
  destruct Hspec as [Hlo Hhi]; [lia|].
  rewrite Z.max_l by lia.
  assert (E1 : 2 ^ f = 2 ^ 52 * 2 ^ (f - 52)).
  { rewrite <- pow2_split by lia. f_equal. lia. }
  assert (E2 : 2 ^ (f + 1) = 2 ^ 53 * 2 ^ (f - 52)).
  { rewrite <- pow2_split by lia. f_equal. lia. }
  rewrite E1 in Hlo. rewrite E2 in Hhi. repeat split; assumption || lia.
Qed.

Lemma mantissa_upper (A b N : Z) :
  0 < b -> 0 < A -> A <= N * b -> N <= 2 ^ 53 ->
  if 0 <=? ulp_exponent A b
  then mantissa A b (ulp_exponent A b) * 2 ^ ulp_exponent A b <= N
  else mantissa A b (ulp_exponent A b) <= N * 2 ^ (- ulp_exponent A b).
Proof.
  intros Hb HA HN Hsmall. unfold mantissa.
  destruct (Z.leb_spec 0 (ulp_exponent A b)) as [He|He].
  - destruct (ulp_exponent_nonneg A b HA Hb He) as (Hf & Ee & Hlo & Hhi).
    set (e := ulp_exponent A b) in *.
    pose proof (pow2_pos e He) as Hp.
    destruct (Z.eq_dec e 0) as [E0|N0].
    + rewrite E0. change (2 ^ 0) with 1. rewrite Z.mul_1_r.
      apply round_half_even_le; lia.
    + assert (He1 : 2 <= 2 ^ e).
      { change 2 with (2 ^ 1) at 1. apply Z.pow_le_mono_r; lia. }
      assert (E1 : 2 ^ 53 = 2 * 2 ^ 52) by reflexivity.
      assert (Hp52 : 0 < 2 ^ 52) by (apply pow2_pos; lia).
      assert (HA' : A = N * b) by nia.
      assert (HN' : N = 2 ^ 52 * 2 ^ e) by nia.
      rewrite HA', HN'.
      replace (2 ^ 52 * 2 ^ e * b) with (2 ^ 52 * (b * 2 ^ e)) by lia.
      rewrite round_half_even_exact by nia. lia.
  - apply round_half_even_le; [| exact Hb |].
    + pose proof (pow2_pos (- ulp_exponent A b)). nia.
    + pose proof (pow2_pos (- ulp_exponent A b)). nia.
Qed.

Lemma mantissa_lower (A b N : Z) :
  0 < b -> 0 < A -> N * b <= A -> N <= 2 ^ 53 ->
  if 0 <=? ulp_exponent A b
  then N <= mantissa A b (ulp_exponent A b) * 2 ^ ulp_exponent A b
  else N * 2 ^ (- ulp_exponent A b) <= mantissa A b (ulp_exponent A b).
Proof.
  intros Hb HA HN Hsmall. unfold mantissa.
  destruct (Z.leb_spec 0 (ulp_exponent A b)) as [He|He].
  - destruct (ulp_exponent_nonneg A b HA Hb He) as (Hf & Ee & Hlo & Hhi).
    set (e := ulp_exponent A b) in *.
    pose proof (pow2_pos e He) as Hp.
    destruct (Z.eq_dec e 0) as [E0|N0].
    + rewrite E0. change (2 ^ 0) with 1. rewrite Z.mul_1_r.
      apply round_half_even_ge; lia.
    + assert (He1 : 2 <= 2 ^ e).
      { change 2 with (2 ^ 1) at 1. apply Z.pow_le_mono_r; lia. }
      assert (E1 : 2 ^ 53 = 2 * 2 ^ 52) by reflexivity.
      assert (Hp52 : 0 < 2 ^ 52) by (apply pow2_pos; lia).
      assert (Hm : 2 ^ 52 <= round_half_even A (b * 2 ^ e)).
      { apply round_half_even_ge; nia. }
      nia.
  - apply round_half_even_ge; [| exact Hb |].
    + pose proof (pow2_pos (- ulp_exponent A b)). nia.
    + pose proof (pow2_pos (- ulp_exponent A b)). nia.
Qed.

(** Rounding keeps a quotient between two ints of at most 53 bits that
    enclose it. *)
Lemma truediv_between (a b lo hi : Z) :
  0 < b -> small lo -> small hi -> lo * b <= a <= hi * b ->
  exists q, truediv a b = Ok q /\ (inject_Z lo <= q <= inject_Z hi)%Q.
Proof.
  intros Hb Hlo Hhi [Hal Hah]. unfold small in *.
  assert (H53 : 2 ^ 53 < 2 ^ 1023) by (apply Z.pow_lt_mono_r; lia).
  assert (Hp53 : 0 < 2 ^ 53) by (apply pow2_pos; lia).
  destruct (truediv_moderate a b Hb) as [q Hq]; [nia|].
  exists q. split; [exact Hq|].
  unfold truediv in Hq.
  destruct (Z.eqb_spec b 0) as [E|_]; [lia|].
  destruct (Z.eqb_spec a 0) as [E|Hne].
  - injection Hq as <-. change 0%Q with (inject_Z 0).
    rewrite <- !Zle_Qle. nia.
  - destruct (_ && _); [discriminate|]. injection Hq as <-.
    replace (Z.abs b) with b by lia.
    replace (Z.sgn b) with 1 by lia. rewrite Z.mul_1_r.
    destruct (Z.lt_total a 0) as [Hneg|[E|Hpos]]; [|lia|].
    + replace (Z.abs a) with (- a) by lia.
      replace (Z.sgn a) with (-1) by lia.
      assert (HA : 0 < - a) by lia.
      pose proof (mantissa_upper (- a) b (- lo) Hb HA) as Hu.
      pose proof (mantissa_lower (- a) b (- hi) Hb HA) as Hl.
      split.
      * apply scaled_ge_int.
        destruct (0 <=? ulp_exponent (- a) b);
          [specialize (Hu ltac:(lia) ltac:(lia)); lia
          |specialize (Hu ltac:(lia) ltac:(lia)); lia].
      * apply scaled_le_int.
        destruct (0 <=? ulp_exponent (- a) b);
          [specialize (Hl ltac:(lia) ltac:(lia)); lia
          |specialize (Hl ltac:(lia) ltac:(lia)); lia].
    + replace (Z.abs a) with a by lia.
      replace (Z.sgn a) with 1 by lia. rewrite Z.mul_1_l.
      split.
      * apply scaled_ge_int. apply mantissa_lower; lia.
      * apply scaled_le_int. apply mantissa_upper; lia.
Qed.

Lemma sum_between (lo hi : Z) (win : list Z) :
  Forall (fun x => lo <= x <= hi) win ->
  lo * Z.of_nat (length win) <= sum win <= hi * Z.of_nat (length win).
Proof.
  induction 1 as [|x win Hx _ IH].
  - unfold sum. simpl. lia.
  - rewrite sum_cons. change (length (x :: win)) with (S (length win)).
    rewrite Nat2Z.inj_succ. lia.
Qed.

Lemma mean_between (lo hi : Z) (win : list Z) :
  small lo -> small hi -> win <> [] ->
  Forall (fun x => lo <= x <= hi) win ->
  exists q, mean win = Ok q /\ (inject_Z lo <= q <= inject_Z hi)%Q.
Proof.
  intros Hlo Hhi Hne Hwin. unfold mean.
  apply truediv_between; [|exact Hlo|exact Hhi|apply sum_between, Hwin].
  destruct win; [contradiction|simpl; lia].
Qed.

Lemma sliding_run_between (n : nat) (lo hi : Z) (data : list Z) :
  (1 <= n)%nat -> small lo -> small hi ->
  Forall (fun x => lo <= x <= hi) data ->
  forall win, Forall (fun x => lo <= x <= hi) win ->
    how (sliding_run n win data) = Exhausted
    /\ Forall (fun q => inject_Z lo <= q <= inject_Z hi)%Q
         (outputs (sliding_run n win data)).
Proof.
  intros Hn Hlo Hhi Hdata.
  induction Hdata as [|x data Hx _ IH]; intros win Hwin; cbn [sliding_run].
  - split; [reflexivity|constructor].
  - assert (Hwin' : Forall (fun x => lo <= x <= hi) (lastn n (win ++ [x]))).
    { apply Forall_lastn, Forall_app. split; [exact Hwin|].
      constructor; [exact Hx|constructor]. }
    destruct (mean_between lo hi _ Hlo Hhi
                (lastn_snoc_nonempty n win x Hn) Hwin') as (q & Hq & Hb).
    rewrite Hq. cbn [how outputs].
    destruct (IH _ Hwin') as [Hend Hall].
    split; [exact Hend|]. constructor; [exact Hb|exact Hall].
Qed.

Lemma sum_constant (c : Z) (win : list Z) :
  Forall (fun x => x = c) win -> sum win = c * Z.of_nat (length win).
Proof.
  induction 1 as [|x win Hx _ IH].
  - unfold sum. simpl. lia.
  - rewrite sum_cons, IH, Hx. change (length (c :: win)) with (S (length win)).
    rewrite Nat2Z.inj_succ. lia.
Qed.

Lemma sliding_run_constant (n : nat) (c : Z) (m : nat) :
  (1 <= n)%nat -> small c ->
  forall win, Forall (fun x => x = c) win ->
    sliding_run n win (repeat c m) = Run (repeat (inject_Z c) m) Exhausted [].
Proof.
  intros Hn Hc. induction m as [|m IH]; intros win Hwin;
    cbn [repeat sliding_run]; [reflexivity|].
  assert (Hwin' : Forall (fun x => x = c) (lastn n (win ++ [c]))).
  { apply Forall_lastn, Forall_app. split; [exact Hwin|].
    constructor; [reflexivity|constructor]. }
  unfold mean. rewrite (sum_constant c _ Hwin'), truediv_exact.
  - rewrite (IH _ Hwin'). reflexivity.
  - pose proof (lastn_snoc_nonempty n win c Hn) as Hne.
    destruct (lastn n (win ++ [c])); [contradiction|simpl; lia].
  - exact Hc.
Qed.

End Smoothing.

(** X5. With [1 <= W < 2 ** 63], the outputs stay within the range of the
    inputs, rounding included: when every input lies between two ints
    [lo] and [hi] of at most 53 bits, the run ends normally and every
    output lies between [lo] and [hi]. *)
Theorem moving_average_within_bounds (W lo hi : Z) (data : list Z) :
  1 <= W < 2 ^ 63 -> small lo -> small hi ->
  Forall (fun x => lo <= x <= hi) data ->
  how (list_moving_average data W) = Exhausted
  /\ Forall (fun q => inject_Z lo <= q <= inject_Z hi)%Q
       (outputs (list_moving_average data W)).
Proof.
  intros HW Hlo Hhi Hdata. rewrite (list_moving_average_eq W data HW).
  apply sliding_run_between; try assumption; [lia|constructor].
Qed.

Lemma moving_average_within_bounds_witness :
  1 <= 2 < 2 ^ 63 /\ small 3 /\ small 9
  /\ Forall (fun x => 3 <= x <= 9) [4; 9; 3]
  /\ how (list_moving_average [4; 9; 3] 2) = Exhausted
  /\ Forall (fun q => inject_Z 3 <= q <= inject_Z 9)%Q
       (outputs (list_moving_average [4; 9; 3] 2)).
Proof.
  assert (H1 : 1 <= 2 < 2 ^ 63) by lia.
  assert (H2 : small 3) by (unfold small; simpl Z.abs; lia).
  assert (H3 : small 9) by (unfold small; simpl Z.abs; lia).
  assert (H4 : Forall (fun x => 3 <= x <= 9) [4; 9; 3])
    by (repeat constructor; lia).
  split; [exact H1|]. split; [exact H2|]. split; [exact H3|].
  split; [exact H4|].
  exact (moving_average_within_bounds 2 3 9 [4; 9; 3] H1 H2 H3 H4).
Defined.

(** X6. With [1 <= W < 2 ** 63], a constant stream of an int of at most
    53 bits is left unchanged: [k] times the value [c] gives [k] times
    the output [c], and the run ends normally. *)
Theorem moving_average_constant (W c : Z) (k : nat) :
  1 <= W < 2 ^ 63 -> small c ->
  list_moving_average (repeat c k) W
  = Run (repeat (inject_Z c) k) Exhausted [].
Proof.
  intros HW Hc. rewrite (list_moving_average_eq W _ HW).
  apply sliding_run_constant; [lia|exact Hc|constructor].
Qed.

Lemma moving_average_constant_witness :
  1 <= 3 < 2 ^ 63 /\ small 7
  /\ list_moving_average (repeat 7 5) 3
     = Run (repeat (inject_Z 7) 5) Exhausted [].
Proof.
  assert (H1 : 1 <= 3 < 2 ^ 63) by lia.
  assert (H2 : small 7) by (unfold small; simpl Z.abs; lia).
  split; [exact H1|]. split; [exact H2|].
  exact (moving_average_constant 3 7 5 H1 H2).
Defined.

(** ** The variants outside their intended window sizes *)

Lemma explicit_nonpositive (W : Z) (data : list Z) :
  W <= 0 ->
  list_moving_average_explicit data W
  = match data with
    | [] => Run [] Exhausted []
    | _ :: rest => Run [] (Failed ZeroDivisionError) rest
    end.
Proof.
  intro HW. destruct data as [|x rest]; [reflexivity|].
  unfold list_moving_average_explicit, consume, moving_average_explicit,
    moving_average_explicit_next, next.
  cbn [length drive Explicit.prologue deque_new bind ret for_value_in].
  unfold Explicit.body, append, len. simpl.
  destruct (Z.ltb_spec W 1) as [_|Hge]; [reflexivity|lia].
Qed.

Lemma optimized_nonpositive (W : Z) (data : list Z) :
  W <= 0 ->
  list_moving_average_optimized data W
  = match data with
    | [] => Run [] Exhausted []
    | _ :: rest => Run [] (Failed ZeroDivisionError) rest
    end.
Proof.
  intro HW. destruct data as [|x rest]; [reflexivity|].
  unfold list_moving_average_optimized, consume, moving_average_optimized,
    moving_average_optimized_next, next.
  cbn [length drive Optimized.prologue deque_new bind ret for_value_in].
  unfold Optimized.body, append, len. simpl.
  destruct (Z.ltb_spec W 1) as [_|Hge]; [reflexivity|lia].
Qed.

Lemma basic_zero (data : list Z) :
  list_moving_average data 0
  = match data with
    | [] => Run [] Exhausted []
    | _ :: rest => Run [] (Failed ZeroDivisionError) rest
    end.
Proof. destruct data; reflexivity. Qed.

Lemma basic_negative (W : Z) (data : list Z) :
  W < 0 ->
  exists e, e <> ZeroDivisionError
            /\ list_moving_average data W = Run [] (Failed e) data.
Proof.
  intro HW. unfold list_moving_average, consume. cbn [drive].
  unfold moving_average_next, moving_average, next, Basic.prologue,
    deque_new.
  destruct (fits_ssize_t W).
  - destruct (Z.ltb_spec W 0) as [_|H]; [|lia].
    exists ValueError. split; [discriminate|reflexivity].
  - exists OverflowError. split; [discriminate|reflexivity].
Qed.

Lemma sliding_run_failed_consumes (n : nat) (data : list Z) :
  forall win e,
    how (sliding_run n win data) = Failed e ->
    (length (remaining (sliding_run n win data)) < length data)%nat.
Proof.
  induction data as [|x data IH]; intros win e; cbn [sliding_run].
  - discriminate.
  - destruct (mean (lastn n (win ++ [x]))); simpl; [|lia].
    intro H. specialize (IH _ _ H). lia.
Qed.

(** X8. [moving_average_explicit] and [moving_average_optimized] do not
    check the window size either.  With [W <= 0] they produce no output:
    an empty input ends normally, and on a non-empty input the first
    request consumes one element and fails with a division by zero (the
    element just appended has been popped again). *)
Theorem variants_nonpositive_window (W : Z) (data : list Z) :
  W <= 0 ->
  match data with
  | [] =>
      list_moving_average_explicit data W = Run [] Exhausted []
      /\ list_moving_average_optimized data W = Run [] Exhausted []
  | _ :: rest =>
      list_moving_average_explicit data W
      = Run [] (Failed ZeroDivisionError) rest
      /\ list_moving_average_optimized data W
         = Run [] (Failed ZeroDivisionError) rest
  end.
Proof.
  intro HW. rewrite explicit_nonpositive, optimized_nonpositive by exact HW.
  destruct data; split; reflexivity.
Qed.

Lemma variants_nonpositive_window_witness :
  -3 <= 0
  /\ list_moving_average_explicit [5; 6] (-3)
     = Run [] (Failed ZeroDivisionError) [6]
  /\ list_moving_average_optimized [5; 6] (-3)
     = Run [] (Failed ZeroDivisionError) [6].
Proof.
  assert (H : -3 <= 0) by lia.
  split; [exact H|]. exact (variants_nonpositive_window (-3) [5; 6] H).
Defined.

(** X9. For every window size, valid or not, [moving_average_explicit]
    and [moving_average_optimized] give the same run.  [moving_average]
    gives that run too when [0 <= W < 2 ** 63].  It does not for [W < 0]
    and a non-empty input, where it fails on the bound of its deque
    before reading anything while the other two read one element and
    divide by zero; and it does not for [W >= 2 ** 63], where it fails
    with [OverflowError] on the bound of its deque while the other two
    have no such bound. *)
Theorem variants_agree_for_every_window (W : Z) (data : list Z) :
  list_moving_average_explicit data W = list_moving_average_optimized data W
  /\ (0 <= W < 2 ^ 63 ->
      list_moving_average data W = list_moving_average_explicit data W)
  /\ (W < 0 -> data <> [] ->
      list_moving_average data W <> list_moving_average_explicit data W)
  /\ (2 ^ 63 <= W ->
      list_moving_average data W <> list_moving_average_explicit data W).
Proof.
  destruct (Z.le_gt_cases 1 W) as [Hpos|Hnon].
  - rewrite list_moving_average_explicit_eq,
      list_moving_average_optimized_eq by exact Hpos.
    split; [reflexivity|]. split; [|split].
    + intro H. apply list_moving_average_eq. lia.
    + intro H. lia.
    + intros H Heq.
      rewrite (list_moving_average_beyond_ssize_t W data H) in Heq.
      pose proof (sliding_run_failed_consumes (Z.to_nat W) data []
                    OverflowError) as Hlt.
      rewrite <- Heq in Hlt. simpl in Hlt. specialize (Hlt eq_refl). lia.
  - rewrite explicit_nonpositive, optimized_nonpositive by lia.
    split; [reflexivity|]. split; [|split].
    + intro H0. assert (W = 0) as -> by lia. apply basic_zero.
    + intros Hneg Hne.
      destruct (basic_negative W data Hneg) as (e & He & ->).
      destruct data as [|x rest]; [contradiction|]. congruence.
    + intro H. assert (0 < 2 ^ 63) by (apply pow2_pos; lia). lia.
Qed.

Lemma variants_agree_for_every_window_witness :
  list_moving_average_explicit [5; 6] (-2)
  = list_moving_average_optimized [5; 6] (-2)
  /\ (0 <= 0 < 2 ^ 63 -> list_moving_average [5; 6] 0
                         = list_moving_average_explicit [5; 6] 0)
  /\ (-2 < 0 -> [5; 6] <> [] ->
      list_moving_average [5; 6] (-2)
      <> list_moving_average_explicit [5; 6] (-2))
  /\ (2 ^ 63 <= 2 ^ 63 ->
      list_moving_average [5; 6] (2 ^ 63)
      <> list_moving_average_explicit [5; 6] (2 ^ 63)).
Proof.
  split; [exact (proj1 (variants_agree_for_every_window (-2) [5; 6]))|].
  split;
    [exact (proj1 (proj2 (variants_agree_for_every_window 0 [5; 6])))|].
  split.
  - exact (proj1 (proj2 (proj2
             (variants_agree_for_every_window (-2) [5; 6])))).
  - exact (proj2 (proj2 (proj2
             (variants_agree_for_every_window (2 ^ 63) [5; 6])))).
Defined.

(** ** The demonstration's table *)

Lemma slice_from_start {A : Type} (data : list A) (i : Z) :
  0 <= i <= Z.of_nat (length data) ->
  slice data 0 i = firstn (Z.to_nat i) data.
Proof.
  intro Hi. unfold slice, slice_bound.
  destruct (Z.ltb_spec 0 0) as [H|_]; [lia|].
  destruct (Z.ltb_spec i 0) as [H|_]; [lia|].
  rewrite !Z.min_l by lia. rewrite Z.sub_0_r. reflexivity.
Qed.

Lemma slice_inside {A : Type} (data : list A) (a b : Z) :
  0 <= a <= b -> b <= Z.of_nat (length data) ->
  slice data a b = firstn (Z.to_nat (b - a)) (skipn (Z.to_nat a) data).
Proof.
  intros Ha Hb. unfold slice, slice_bound.
  destruct (Z.ltb_spec a 0) as [H|_]; [lia|].
  destruct (Z.ltb_spec b 0) as [H|_]; [lia|].
  rewrite !Z.min_l by lia. reflexivity.
Qed.

(** X10. In the table of [demonstrate_simple_example], with [W >= 1],
    the window shown on line [i] is the last [min(W, i)] inputs up to
    line [i], and the average paired with that line (the output of
    [moving_average] at position [i - 1], when the generator gets that
    far) is the quotient of the sum of the window shown by its length,
    rounded as the division of ints rounds it. *)
Theorem displayed_window_is_averaged (W i : Z) (data : list Z) :
  1 <= W -> 1 <= i <= Z.of_nat (length data) ->
  displayed_window data W i
  = lastn (Z.to_nat W) (firstn (Z.to_nat i) data)
  /\ forall avg : Q,
       nth_error (outputs (list_moving_average data W)) (Z.to_nat (i - 1))
       = Some avg ->
       truediv (sum (displayed_window data W i))
         (Z.of_nat (length (displayed_window data W i)))
       = Ok avg.
Proof.
  intros HW Hi.
  assert (Hshown : displayed_window data W i
                   = lastn (Z.to_nat W) (firstn (Z.to_nat i) data)).
  { unfold displayed_window. destruct (Z.leb_spec i W) as [Hle|Hgt].
    - rewrite slice_from_start by lia.
      symmetry. apply lastn_all. rewrite length_firstn. lia.
    - rewrite slice_inside by lia.
      replace (Z.to_nat i) with (S (Z.to_nat (i - 1))) by lia.
      rewrite lastn_firstn by lia.
      f_equal; [lia|]. f_equal. lia. }
  split; [exact Hshown|].
  intros avg Havg. rewrite Hshown.
  destruct (Z.lt_ge_cases W (2 ^ 63)) as [Hmax|Hmax].
  - rewrite (list_moving_average_eq W data (conj HW Hmax)) in Havg.
    destruct (nth_error_sliding_run _ _ _ _ _ Havg) as [_ Hmean].
    rewrite app_nil_l in Hmean.
    replace (S (Z.to_nat (i - 1))) with (Z.to_nat i) in Hmean by lia.
    exact Hmean.
  - rewrite (list_moving_average_beyond_ssize_t W data Hmax) in Havg.
    destruct (Z.to_nat (i - 1)); discriminate Havg.
Qed.

Lemma displayed_window_is_averaged_witness :
  1 <= 3 /\ 1 <= 5 <= Z.of_nat (length [1; 2; 3; 4; 5; 6; 7])
  /\ displayed_window [1; 2; 3; 4; 5; 6; 7] 3 5 = [3; 4; 5]
  /\ nth_error (outputs (list_moving_average [1; 2; 3; 4; 5; 6; 7] 3))
       (Z.to_nat (5 - 1))
     = Some (inject_Z 4)
  /\ truediv (sum (displayed_window [1; 2; 3; 4; 5; 6; 7] 3 5))
       (Z.of_nat (length (displayed_window [1; 2; 3; 4; 5; 6; 7] 3 5)))
     = Ok (inject_Z 4).
Proof.
  assert (H1 : 1 <= 3) by lia.
  assert (H2 : 1 <= 5 <= Z.of_nat (length [1; 2; 3; 4; 5; 6; 7]))
    by (simpl; lia).
  assert (H3 : nth_error
                 (outputs (list_moving_average [1; 2; 3; 4; 5; 6; 7] 3))
                 (Z.to_nat (5 - 1))
               = Some (inject_Z 4)) by (vm_compute; reflexivity).
  split; [exact H1|]. split; [exact H2|].
  split; [exact (proj1 (displayed_window_is_averaged 3 5
                          [1; 2; 3; 4; 5; 6; 7] H1 H2))|].
  split; [exact H3|].
  exact (proj2 (displayed_window_is_averaged 3 5 [1; 2; 3; 4; 5; 6; 7]
                  H1 H2) (inject_Z 4) H3).
Defined.

(** ** The decorators: failures and stacking *)

Section Stacking.

Lemma string_app_assoc (a b c : string) :
  ((a ++ b) ++ c = a ++ (b ++ c))%string.
Proof.
  induction a as [|ch a IH]; simpl; [reflexivity|]. rewrite IH. reflexivity.
Qed.

Lemma string_app_empty_r (a : string) : (a ++ "" = a)%string.
Proof.
  induction a as [|ch a IH]; simpl; [reflexivity|]. rewrite IH. reflexivity.
Qed.

End Stacking.

(** X11. Neither decorator catches anything: when the function it
    decorates raises, the decorated function raises the same exception,
    nothing is appended, and what the function did before failing
    stands.  For [style] this holds whatever the type of the values the
    function would have returned. *)
Theorem decorators_pass_exceptions
    (World Exc Args : Type) (upper : string -> string)
    (Value : Type) (format : Value -> string)
    (prefix suffix : string)
    (func : Args -> call World Exc string)
    (styled : Args -> call World Exc Value)
    (args : Args) (w w' : World) (e : Exc) :
  func args w = (inl e, w') ->
  styled args w = (inl e, w') ->
  shout World Exc Args upper func args w = (inl e, w')
  /\ style World Exc Args Value format prefix suffix styled args w
     = (inl e, w')
  /\ style World Exc Args string format_str prefix suffix func args w
     = (inl e, w').
Proof.
  intros Hfunc Hstyled. unfold shout, style, and_then.
  rewrite Hfunc, Hstyled. repeat split; reflexivity.
Qed.

Lemma decorators_pass_exceptions_witness :
  (fun (_ : string) (w : nat) => (@inl exn string IndexError, S w))
    "x"%string 0%nat
  = (inl IndexError, 1%nat)
  /\ (fun (_ : string) (w : nat) => (@inl exn value IndexError, S w))
       "x"%string 0%nat
     = (inl IndexError, 1%nat)
  /\ shout nat exn string upper_ascii
       (fun _ w => (inl IndexError, S w)) "x"%string 0%nat
     = (inl IndexError, 1%nat)
  /\ style nat exn string value format_value "[" "]"
       (fun _ w => (inl IndexError, S w)) "x"%string 0%nat
     = (inl IndexError, 1%nat)
  /\ style nat exn string string format_str "[" "]"
       (fun _ w => (inl IndexError, S w)) "x"%string 0%nat
     = (inl IndexError, 1%nat).
Proof.
  assert (H1 : (fun (_ : string) (w : nat) =>
                  (@inl exn string IndexError, S w)) "x"%string 0%nat
               = (inl IndexError, 1%nat)) by reflexivity.
  assert (H2 : (fun (_ : string) (w : nat) =>
                  (@inl exn value IndexError, S w)) "x"%string 0%nat
               = (inl IndexError, 1%nat)) by reflexivity.
  split; [exact H1|]. split; [exact H2|].
  exact (decorators_pass_exceptions nat exn string upper_ascii
           value format_value "[" "]"
           (fun _ w => (inl IndexError, S w))
           (fun _ w => (inl IndexError, S w))
           "x"%string 0%nat 1%nat IndexError H1 H2).
Defined.

(** X12. Stacked [style] decorators nest: [@style(p1, s1)] written above
    [@style(p2, s2)] behaves, on every call, as a single
    [@style(p1 + p2, s2 + s1)], whatever the function below them
    returns. *)
Theorem style_stacks
    (World Exc Args : Type) (Value : Type) (format : Value -> string)
    (p1 s1 p2 s2 : string)
    (func : Args -> call World Exc Value) (args : Args) (w : World) :
  style World Exc Args string format_str p1 s1
    (style World Exc Args Value format p2 s2 func) args w
  = style World Exc Args Value format (p1 ++ p2) (s2 ++ s1) func args w.
Proof.
  unfold style, and_then, returns, format_str.
  destruct (func args w) as [[e|r] w']; [reflexivity|].
  rewrite !string_app_assoc. reflexivity.
Qed.

(** X13. [style] with an empty prefix and an empty suffix adds nothing:
    the decorated function raises what [func] raises, and returns what
    [func] returns as an f-string formats it.  For a function that
    returns strings it behaves as the function itself on every call; for
    a function that returns the int [5] it returns the string ["5"]. *)
Theorem style_empty_only_formats
    (World Exc Args : Type) (Value : Type) (format : Value -> string)
    (func : Args -> call World Exc Value)
    (text : Args -> call World Exc string) (args : Args) (w : World) :
  style World Exc Args Value format "" "" func args w
  = (match func args w with
     | (inl e, w') => (inl e, w')
     | (inr r, w') => (inr (format r), w')
     end)
  /\ style World Exc Args string format_str "" "" text args w = text args w
  /\ style unit Empty_set string value format_value "" "" five "x"%string tt
     = (inr "5"%string, tt).
Proof.
  unfold style, and_then, returns, format_str. split; [|split].
  - destruct (func args w) as [[e|r] w']; [reflexivity|].
    simpl. rewrite string_app_empty_r. reflexivity.
  - destruct (text args w) as [[e|r] w']; [reflexivity|].
    simpl. rewrite string_app_empty_r. reflexivity.
  - reflexivity.
Qed.

(** X14. The order of stacking matters in the way [main] says
    (decorators are applied bottom-up): with [@shout] above [@style] the
    prefix and the suffix are shouted too and the marks come last; with
    [@style] above [@shout] they wrap the shouted result untouched. *)
Theorem shout_and_style_stack
    (World Exc Args : Type) (upper : string -> string)
    (prefix suffix : string)
    (func : Args -> call World Exc string)
    (args : Args) (w w' : World) (r : string) :
  func args w = (inr r, w') ->
  shout World Exc Args upper
    (style World Exc Args string format_str prefix suffix func) args w
  = (inr (upper (prefix ++ r ++ suffix) ++ "!!!")%string, w')
  /\ style World Exc Args string format_str prefix suffix
       (shout World Exc Args upper func) args w
     = (inr (prefix ++ (upper r ++ "!!!") ++ suffix)%string, w').
Proof.
  intro Hfunc. unfold shout, style, and_then, returns, format_str.
  rewrite Hfunc. split; reflexivity.
Qed.

Lemma shout_and_style_stack_witness :
  say_something "meeting at 3pm" tt = (inr "meeting at 3pm"%string, tt)
  /\ shout unit Empty_set string upper_ascii
       (style unit Empty_set string string format_str "* " " *"
          say_something)
       "meeting at 3pm"%string tt
     = (inr "* MEETING AT 3PM *!!!"%string, tt)
  /\ style unit Empty_set string string format_str "* " " *"
       (shout unit Empty_set string upper_ascii say_something)
       "meeting at 3pm"%string tt
     = (inr "* MEETING AT 3PM!!! *"%string, tt).
Proof.
  assert (H : say_something "meeting at 3pm" tt
              = (inr "meeting at 3pm"%string, tt)) by reflexivity.
  split; [exact H|].
  exact (shout_and_style_stack unit Empty_set string upper_ascii "* " " *"
           say_something "meeting at 3pm"%string tt tt
           "meeting at 3pm"%string H).
Defined.

(** ** Reading the volumes and filtering them *)

Import Volume.

Section Reading.

Variable int_of_text : string -> option Z.

Lemma pull_volumes_good (good : list row) (vs : list Z) :
  volumes_are int_of_text good vs ->
  forall (tail : list row) (fuel : nat),
    (length good < fuel)%nat ->
    pull_volumes int_of_text fuel (good ++ tail)
    = let r := pull_volumes int_of_text (fuel - length good) tail in
      VolumeRun (vs ++ volumes r) (volumes_end r) (unread r).
Proof.
  induction 1 as [|r z good vs Hr _ IH]; intros tail fuel Hfuel.
  - simpl. rewrite Nat.sub_0_r.
    destruct (pull_volumes int_of_text fuel tail); reflexivity.
  - destruct fuel as [|fuel]; simpl in Hfuel; [lia|].
    cbn [app pull_volumes get_volume_next length Nat.sub].
    rewrite Hr, IH by lia. reflexivity.
Qed.

Lemma volumes_are_length (rows : list row) (vs : list Z) :
  volumes_are int_of_text rows vs -> length rows = length vs.
Proof. induction 1; simpl; congruence. Qed.

Lemma lastn_cons_skip {A : Type} (k : nat) (x : A) (l : list A) :
  (k <= length l)%nat -> lastn k (x :: l) = lastn k l.
Proof.
  intro H. unfold lastn. simpl length.
  replace (S (length l) - k)%nat with (S (length l - k)) by lia.
  reflexivity.
Qed.

Section Piping.

Context {L : Type}.
Variable prologue : Z -> result L.
Variable body : L -> Z -> result (Q * L).

Local Abbreviation over_volumes :=
  (next_over_volumes int_of_text prologue body).
Local Abbreviation over_values := (next prologue body).

(** One resumption over a row that converts, next to the same resumption
    over its volume. *)
Lemma over_volumes_step (g : gen L) (r : row) (z : Z) (rows : list row)
    (s : stream) :
  volume_of int_of_text r = inr z ->
  match over_values g (z :: s) with
  | Yield a g' s' => s' = s /\ over_volumes g (r :: rows) = PYield a g' rows
  | StopIteration _ => False
  | Raised x s' =>
      (s' = s /\ over_volumes g (r :: rows) = PRaised (Builtin x) rows)
      \/ (s' = z :: s
          /\ over_volumes g (r :: rows) = PRaised (Builtin x) (r :: rows))
  end.
Proof.
  intro Hr.
  unfold next, next_over_volumes, for_value_in, for_value_in_volumes,
    get_volume_next.
  rewrite Hr.
  destruct g as [ws|l]; [destruct (prologue ws) as [l|e]|];
    try (destruct (body l z) as [[a l']|e]); auto.
Qed.

(** One resumption at the end of the rows that convert. *)
Lemma over_volumes_last (g : gen L) :
  match over_values g [] with
  | Yield _ _ _ => False
  | StopIteration s' =>
      s' = [] /\ over_volumes g [] = PStop
      /\ forall bad e rest,
           volume_of int_of_text bad = inl e ->
           over_volumes g (bad :: rest) = PRaised e rest
  | Raised x s' =>
      s' = [] /\ forall rows, over_volumes g rows = PRaised (Builtin x) rows
  end.
Proof.
  unfold next, next_over_volumes, for_value_in, for_value_in_volumes,
    get_volume_next.
  destruct g as [ws|l]; [destruct (prologue ws) as [l|e]|];
    repeat split; auto; intros bad e' rest Hbad; rewrite Hbad; reflexivity.
Qed.

Lemma drive_enough (fuel : nat) :
  forall (fuel' : nat) (g : gen L) (s : stream),
    (length s < fuel)%nat -> (length s < fuel')%nat ->
    drive over_values fuel g s = drive over_values fuel' g s.
Proof.
  induction fuel as [|fuel IH]; intros fuel' g s H H'; [lia|].
  destruct fuel' as [|fuel']; [lia|]. cbn [drive].
  destruct (over_values g s) as [v g' s'| |] eqn:Hy; try reflexivity.
  destruct (next_consumes prologue body g g' s s' v Hy) as [x ->].
  simpl in H, H'. rewrite (IH fuel' g' s') by lia. reflexivity.
Qed.

Lemma next_stops (g : gen L) (s s' : stream) :
  over_values g s = StopIteration s' -> s = [] /\ s' = [].
Proof.
  unfold next, for_value_in. intro H.
  destruct g as [ws|l]; [destruct (prologue ws) as [l|e]; [|discriminate]|];
    (destruct s as [|x s];
     [injection H as <-; split; reflexivity
     |destruct (body l x) as [[a l']|e]; discriminate]).
Qed.

Lemma drive_exhausted (fuel : nat) :
  forall (g : gen L) (s : stream),
    how (drive over_values fuel g s) = Exhausted ->
    remaining (drive over_values fuel g s) = [].
Proof.
  induction fuel as [|fuel IH]; intros g s; cbn [drive]; [discriminate|].
  destruct (over_values g s) as [v g' s'|s'|x s'] eqn:Hy;
    cbn [how remaining].
  - apply IH.
  - intros _. exact (proj2 (next_stops g s s' Hy)).
  - discriminate.
Qed.

(** The pipeline over rows that all convert is the filter over their
    volumes. *)
Lemma drive_over_good (rows : list row) (vs : list Z) :
  volumes_are int_of_text rows vs ->
  forall (fuel : nat) (g : gen L),
    drive_over_volumes over_volumes fuel g rows
    = let r := drive over_values fuel g vs in
      PipedRun (outputs r) (through (how r))
        (lastn (length (remaining r)) rows).
Proof.
  induction 1 as [|r z rows vs Hr Hrows IH]; intros fuel g;
    (destruct fuel as [|fuel];
     [cbn [drive_over_volumes drive]; cbv zeta;
      cbn [outputs how remaining through];
      rewrite lastn_all;
      [reflexivity
      |simpl; try rewrite (volumes_are_length rows vs Hrows); lia]|]);
    cbn [drive_over_volumes drive].
  - pose proof (over_volumes_last g) as Hlast.
    destruct (over_values g []) as [v g' s'|s'|x s'].
    + contradiction.
    + destruct Hlast as (_ & -> & _). reflexivity.
    + destruct Hlast as (-> & ->). reflexivity.
  - pose proof (over_volumes_step g r z rows vs Hr) as Hstep.
    pose proof (volumes_are_length rows vs Hrows) as Hlen.
    destruct (over_values g (z :: vs)) as [v g' s'|s'|x s'].
    + destruct Hstep as (-> & ->). rewrite (IH fuel g'). cbv zeta.
      cbn [outputs how remaining filtered filtered_end rows_left].
      rewrite lastn_cons_skip; [reflexivity|].
      rewrite Hlen. apply drive_remaining.
    + contradiction.
    + destruct Hstep as [(-> & ->)|(-> & ->)]; cbv zeta;
        cbn [outputs how remaining through].
      * rewrite lastn_cons_skip by lia. rewrite lastn_all by lia.
        reflexivity.
      * rewrite lastn_all by (simpl; lia). reflexivity.
Qed.

(** The pipeline up to a row that does not convert. *)
Lemma drive_over_bad (good : list row) (vs : list Z) (bad : row)
    (e : error) (rest : list row) :
  volumes_are int_of_text good vs ->
  volume_of int_of_text bad = inl e ->
  forall (fuel : nat) (g : gen L),
    (length good < fuel)%nat ->
    (how (drive over_values fuel g vs) = Exhausted ->
     drive_over_volumes over_volumes fuel g (good ++ bad :: rest)
     = PipedRun (outputs (drive over_values fuel g vs)) (Failing e) rest)
    /\ (forall x,
          how (drive over_values fuel g vs) = Failed x ->
          drive_over_volumes over_volumes fuel g (good ++ bad :: rest)
          = PipedRun (outputs (drive over_values fuel g vs))
              (Failing (Builtin x))
              (lastn (length (remaining (drive over_values fuel g vs))) good
               ++ bad :: rest)).
Proof.
  intros Hgood Hbad.
  induction Hgood as [|r z good vs Hr Hrows IH]; intros fuel g Hfuel;
    (destruct fuel as [|fuel]; simpl in Hfuel; [lia|]);
    cbn [drive_over_volumes drive app].
  - pose proof (over_volumes_last g) as Hlast.
    destruct (over_values g []) as [v g' s'|s'|x s'].
    + contradiction.
    + destruct Hlast as (_ & _ & Hb). rewrite (Hb bad e rest Hbad).
      split; [reflexivity|]. intros x Hx. discriminate Hx.
    + destruct Hlast as (-> & ->).
      split; [intro Hx; discriminate Hx|].
      intros y Hy. injection Hy as <-. reflexivity.
  - pose proof (over_volumes_step g r z (good ++ bad :: rest) vs Hr)
      as Hstep.
    pose proof (volumes_are_length good vs Hrows) as Hlen.
    destruct (over_values g (z :: vs)) as [v g' s'|s'|x s'].
    + destruct Hstep as (-> & ->).
      destruct (IH fuel g' ltac:(lia)) as [IHe IHf].
      cbn [outputs how remaining]. split.
      * intro Hx. rewrite (IHe Hx). reflexivity.
      * intros y Hy. rewrite (IHf y Hy).
        cbn [filtered filtered_end rows_left].
        rewrite lastn_cons_skip; [reflexivity|].
        rewrite Hlen. apply drive_remaining.
    + contradiction.
    + cbn [outputs how remaining].
      split; [intro Hx; discriminate Hx|].
      intros y Hy. injection Hy as <-.
      destruct Hstep as [(-> & ->)|(-> & ->)].
      * rewrite lastn_cons_skip by lia. rewrite lastn_all by lia.
        reflexivity.
      * rewrite lastn_all by (simpl; lia). reflexivity.
Qed.

End Piping.

End Reading.

(** X15. When every row has a [Volume] field that [int] accepts,
    [get_volume] yields the volumes of all the rows, in order, and then
    ends normally with the reader exhausted. *)
Theorem get_volume_yields_all (int_of_text : string -> option Z)
    (rows : list row) (vs : list Z) :
  volumes_are int_of_text rows vs ->
  list_get_volume int_of_text rows = VolumeRun vs Ended [].
Proof.
  intro Hrows. unfold list_get_volume.
  rewrite <- (app_nil_r rows) at 2.
  rewrite (pull_volumes_good int_of_text rows vs Hrows) by lia.
  replace (S (length rows) - length rows)%nat with 1%nat by lia.
  simpl. rewrite app_nil_r. reflexivity.
Qed.

Lemma get_volume_yields_all_witness :
  volumes_are int_of_digits [volume_row "100"; volume_row "250"] [100; 250]
  /\ list_get_volume int_of_digits [volume_row "100"; volume_row "250"]
     = VolumeRun [100; 250] Ended [].
Proof.
  assert (H : volumes_are int_of_digits
                [volume_row "100"; volume_row "250"] [100; 250])
    by (repeat constructor).
  split; [exact H|]. exact (get_volume_yields_all int_of_digits _ _ H).
Defined.

(** X16. [get_volume] stops at the first row it cannot convert: the
    volumes of the rows before it have been yielded, the rows after it
    are not read, and the failure is a [KeyError] when the row has no
    [Volume] key, a [TypeError] when the field is [None], and a
    [ValueError] when [int] refuses the text. *)
Theorem get_volume_stops_at_bad_row (int_of_text : string -> option Z)
    (good : list row) (vs : list Z) (bad : row) (rest : list row) :
  volumes_are int_of_text good vs ->
  (bad "Volume"%string = None ->
   list_get_volume int_of_text (good ++ bad :: rest)
   = VolumeRun vs (Failing (KeyError "Volume")) rest)
  /\ (bad "Volume"%string = Some NoField ->
      list_get_volume int_of_text (good ++ bad :: rest)
      = VolumeRun vs (Failing TypeError) rest)
  /\ (forall text, bad "Volume"%string = Some (Text text) ->
      int_of_text text = None ->
      list_get_volume int_of_text (good ++ bad :: rest)
      = VolumeRun vs (Failing (Builtin ValueError)) rest).
Proof.
  intro Hgood.
  assert (Hany : forall e, volume_of int_of_text bad = inl e ->
            list_get_volume int_of_text (good ++ bad :: rest)
            = VolumeRun vs (Failing e) rest).
  { intros e Hbad. unfold list_get_volume.
    rewrite (pull_volumes_good int_of_text good vs Hgood)
      by (rewrite length_app; simpl; lia).
    rewrite length_app. simpl length.
    replace (S (length good + S (length rest)) - length good)%nat
      with (S (S (length rest))) by lia.
    cbn [pull_volumes get_volume_next]. rewrite Hbad. simpl.
    rewrite app_nil_r. reflexivity. }
  repeat split.
  - intro H. apply Hany. unfold volume_of. rewrite H. reflexivity.
  - intro H. apply Hany. unfold volume_of. rewrite H. reflexivity.
  - intros text H Hint. apply Hany. unfold volume_of.
    rewrite H, Hint. reflexivity.
Qed.

Lemma get_volume_stops_at_bad_row_witness :
  volumes_are int_of_digits [volume_row "100"] [100]
  /\ (price_row "12" "Volume"%string = None ->
      list_get_volume int_of_digits
        ([volume_row "100"] ++ price_row "12" :: [volume_row "7"])
      = VolumeRun [100] (Failing (KeyError "Volume")) [volume_row "7"]).
Proof.
  assert (H : volumes_are int_of_digits [volume_row "100"] [100])
    by (repeat constructor).
  split; [exact H|].
  exact (proj1 (get_volume_stops_at_bad_row int_of_digits
                  [volume_row "100"] [100] (price_row "12")
                  [volume_row "7"] H)).
Defined.

(** X17. The pipeline of [print_comparison] and [demonstrate_stock_data],
    [moving_average_optimized(get_volume(reader), W)], on rows that all
    convert, for every [W]: it does what [moving_average_optimized] does
    on their volumes.  It produces the same values and ends the same
    way, and when the filter fails the rows after the one whose volume
    made it fail are left unread.  With [W >= 1] and volumes below
    [2 ** 1023] in absolute value, it ends normally with the reader
    exhausted and one value for each row. *)
Theorem filtered_stream_of_good_rows (int_of_text : string -> option Z)
    (rows : list row) (vs : list Z) (W : Z) :
  volumes_are int_of_text rows vs ->
  filtered_stream int_of_text rows W
  = PipedRun (outputs (list_moving_average_optimized vs W))
      (through (how (list_moving_average_optimized vs W)))
      (lastn (length (remaining (list_moving_average_optimized vs W))) rows)
  /\ (1 <= W -> Forall moderate vs ->
      filtered_stream int_of_text rows W
      = PipedRun (outputs (list_moving_average_optimized vs W)) Ended []
      /\ length (outputs (list_moving_average_optimized vs W))
         = length rows).
Proof.
  intro Hrows.
  pose proof (volumes_are_length int_of_text rows vs Hrows) as Hlen.
  assert (Hsim : filtered_stream int_of_text rows W
            = PipedRun (outputs (list_moving_average_optimized vs W))
                (through (how (list_moving_average_optimized vs W)))
                (lastn (length (remaining
                                  (list_moving_average_optimized vs W)))
                   rows)).
  { unfold filtered_stream.
    rewrite (drive_over_good int_of_text Optimized.prologue Optimized.body
               rows vs Hrows).
    rewrite Hlen. reflexivity. }
  split; [exact Hsim|].
  intros HW Hvs. rewrite Hsim.
  rewrite (list_moving_average_optimized_eq W vs HW).
  pose proof (sliding_run_moderate (Z.to_nat W) vs ltac:(lia) Hvs []
                ltac:(constructor)) as Hend.
  destruct (sliding_run_exhausted (Z.to_nat W) vs [] Hend) as [Hout Hrem].
  rewrite Hend, Hrem. split; [|lia].
  cbn [through length]. unfold lastn. rewrite Nat.sub_0_r, skipn_all.
  reflexivity.
Qed.

Lemma filtered_stream_of_good_rows_witness :
  volumes_are int_of_digits
    [volume_row "100"; volume_row "250"; volume_row "70"] [100; 250; 70]
  /\ filtered_stream int_of_digits
       [volume_row "100"; volume_row "250"; volume_row "70"] 2
     = PipedRun (outputs (list_moving_average_optimized [100; 250; 70] 2))
         (through (how (list_moving_average_optimized [100; 250; 70] 2)))
         (lastn
            (length (remaining
                       (list_moving_average_optimized [100; 250; 70] 2)))
            [volume_row "100"; volume_row "250"; volume_row "70"])
  /\ outputs (list_moving_average_optimized [100; 250; 70] 2)
     = [inject_Z 100; inject_Z 175; inject_Z 160].
Proof.
  assert (H : volumes_are int_of_digits
                [volume_row "100"; volume_row "250"; volume_row "70"]
                [100; 250; 70]) by (repeat constructor).
  split; [exact H|].
  split; [exact (proj1 (filtered_stream_of_good_rows int_of_digits _ _ 2 H))
         |vm_compute; reflexivity].
Defined.

(** X18. In the same pipeline, for every [W], a row that [get_volume]
    cannot convert ends the filtered stream with that row's exception,
    unchanged, when the filter has not failed before on the volumes of
    the rows in front of it: the values for those rows have been
    produced, and the rows after the bad one are never read.  When the
    filter fails on one of those volumes, the stream ends there with the
    filter's exception and the bad row is not reached.  With [W >= 1]
    and volumes below [2 ** 1023] in absolute value the filter does not
    fail. *)
Theorem filtered_stream_stops_at_bad_row (int_of_text : string -> option Z)
    (good : list row) (vs : list Z) (bad : row) (e : error)
    (rest : list row) (W : Z) :
  volumes_are int_of_text good vs ->
  volume_of int_of_text bad = inl e ->
  (how (list_moving_average_optimized vs W) = Exhausted ->
   filtered_stream int_of_text (good ++ bad :: rest) W
   = PipedRun (outputs (list_moving_average_optimized vs W))
       (Failing e) rest)
  /\ (forall x,
        how (list_moving_average_optimized vs W) = Failed x ->
        filtered_stream int_of_text (good ++ bad :: rest) W
        = PipedRun (outputs (list_moving_average_optimized vs W))
            (Failing (Builtin x))
            (lastn
               (length (remaining (list_moving_average_optimized vs W)))
               good
             ++ bad :: rest))
  /\ (1 <= W -> Forall moderate vs ->
      how (list_moving_average_optimized vs W) = Exhausted).
Proof.
  intros Hgood Hbad.
  pose proof (volumes_are_length int_of_text good vs Hgood) as Hlen.
  assert (Hfuel : drive moving_average_optimized_next
                    (S (length (good ++ bad :: rest)))
                    (moving_average_optimized W) vs
                  = list_moving_average_optimized vs W).
  { unfold list_moving_average_optimized, consume,
      moving_average_optimized_next.
    apply drive_enough; [rewrite length_app; simpl|]; lia. }
  destruct (drive_over_bad int_of_text Optimized.prologue Optimized.body
              good vs bad e rest Hgood Hbad
              (S (length (good ++ bad :: rest)))
              (moving_average_optimized W)
              ltac:(rewrite length_app; simpl; lia)) as [He Hf].
  fold moving_average_optimized_next in He, Hf.
  rewrite Hfuel in He, Hf.
  split; [exact He|]. split; [exact Hf|].
  intros HW Hvs. rewrite (list_moving_average_optimized_eq W vs HW).
  apply sliding_run_moderate; [lia|exact Hvs|constructor].
Qed.

Lemma filtered_stream_stops_at_bad_row_witness :
  volumes_are int_of_digits [volume_row "100"; volume_row "250"] [100; 250]
  /\ volume_of int_of_digits (volume_row "n/a") = inl (Builtin ValueError)
  /\ how (list_moving_average_optimized [100; 250] 2) = Exhausted
  /\ filtered_stream int_of_digits
       ([volume_row "100"; volume_row "250"]
          ++ volume_row "n/a" :: [volume_row "70"]) 2
     = PipedRun (outputs (list_moving_average_optimized [100; 250] 2))
         (Failing (Builtin ValueError)) [volume_row "70"].
Proof.
  assert (H2 : volumes_are int_of_digits
                 [volume_row "100"; volume_row "250"] [100; 250])
    by (repeat constructor).
  assert (H3 : volume_of int_of_digits (volume_row "n/a")
               = inl (Builtin ValueError)) by reflexivity.
  assert (H4 : how (list_moving_average_optimized [100; 250] 2) = Exhausted)
    by (vm_compute; reflexivity).
  split; [exact H2|]. split; [exact H3|]. split; [exact H4|].
  exact (proj1 (filtered_stream_stops_at_bad_row int_of_digits _ _ _ _
                  [volume_row "70"] 2 H2 H3) H4).
Defined.
